(** * etl::variant (variant_variadic.h): a shallow embedding and its properties

    The variant of the Embedded Template Library is a tagged union kept in a
    byte buffer inside the object: [data] (the storage), [operation] (a
    pointer to the copy/move/destroy dispatcher of the held alternative) and
    [type_id] (the tag, [variant_npos] when valueless).

    Variant objects live in a store indexed by address, so that [this] and
    [other] may alias as they can in the C++ code.  Every function of the
    header is a computation in a state-and-failure monad over that store; the
    constructors, destructors and visitor calls of the alternative types are
    recorded in a trace.  A constructor of an alternative type may exit by an
    exception, which leaves the store as it is at the throw. *)

From Stdlib Require Import ZArith NArith Lia String.
From stdpp Require Import base decidable option list gmap.

Local Open Scope N_scope.

(** ** Outcomes of running a piece of the header *)

(** The two exceptions of the header that the modelled code raises, and
    whatever a constructor of an alternative type throws. *)
Inductive exception :=
| variant_incorrect_type_exception
| bad_variant_access
| alternative_exception.

Inductive outcome (S A : Type) :=
| Ok (a : A) (s : S)           (* normal return *)
| Throw (e : exception) (s : S) (* an exception leaves the function, the
                                   store being as it is at the throw *)
| Terminate                    (* an exception met a noexcept function *)
| Undefined                    (* the C++ program has undefined behaviour *)
| IllFormed.                   (* the instantiation is rejected at compile time *)

Arguments Ok {S A} a s.
Arguments Throw {S A} e s.
Arguments Terminate {S A}.
Arguments Undefined {S A}.
Arguments IllFormed {S A}.

Definition M (S A : Type) : Type := S → outcome S A.

#[global] Instance M_ret {S} : MRet (M S) := λ A a s, Ok a s.

#[global] Instance M_bind {S} : MBind (M S) := λ A B f m s,
  match m s with
  | Ok a s' => f a s'
  | Throw e s' => Throw e s'
  | Terminate => Terminate
  | Undefined => Undefined
  | IllFormed => IllFormed
  end.

Definition throw {S A} (e : exception) : M S A := λ s, Throw e s.
Definition undefined {S A} : M S A := λ _, Undefined.
Definition ill_formed {S A} : M S A := λ _, IllFormed.

(** A function declared [noexcept]: an exception that would leave it ends
    the program through std::terminate. *)
Definition noexcept {S A} (m : M S A) : M S A := λ s,
  match m s with
  | Throw _ _ => Terminate
  | r => r
  end.

(** Modelled from the spec: the ETL_ASSERT macro of error_handler.h, which is
    not part of the sources at hand.  The spec has a failed check surface as
    "a hard failure (exception or equivalent abrupt signal)": the failed
    assertion ends the computation with the given exception. *)
Definition ETL_ASSERT {S} (b : bool) (e : exception) : M S unit :=
  if b then mret tt else throw e.

(** A [static_assert]: a false condition means the program does not compile. *)
Definition static_assert {S} (b : bool) : M S unit :=
  if b then mret tt else ill_formed.

Abbreviation addr := nat (only parsing).

(** The operation codes of namespace private_variant. *)
Definition Copy : Z := 0.
Definition Move : Z := 1.
Definition Destroy : Z := 2.

(** The function [operation] points to: an instantiation of
    [operation_type<T, IsCopyable, IsMoveable>::do_operation], or the one
    of the null operation [operation_type<void, false, false>]. *)
Inductive operation_function (ty : Type) :=
| operation_void
| operation_type (T : ty) (IsCopyable IsMoveable : bool).

Arguments operation_void {ty}.
Arguments operation_type {ty} T IsCopyable IsMoveable.

(** What an instantiation [etl::variant<TTypes...>] is built from: the
    alternative types with their values and constructor arguments, and the
    facts about them that are external to the header.  Types are compared by
    identity, as templates do. *)
Class Alternatives (ty val args : Type) := {
  ty_eq_dec :: EqDecision ty;
  (* etl::integral_limits<size_t>::max; the width of size_t depends on the
     platform *)
  size_t_max : N;
  (* the template parameter pack *)
  TTypes : list ty;
  (* etl::remove_cvref_t: the type without reference and cv-qualifiers.
     The alternatives of the pack are object types without qualifiers; the
     types that the function templates are instantiated with need not be *)
  remove_cvref_t : ty → ty;
  remove_cvref_t_idemp : ∀ T, remove_cvref_t (remove_cvref_t T) = remove_cvref_t T;
  TTypes_unqualified : ∀ T, T ∈ TTypes → remove_cvref_t T = T;
  (* the traits and the special member functions of the types *)
  is_copy_constructible : ty → bool;
  is_move_constructible : ty → bool;
  default_ctor : ty → val;              (* type() *)
  args_ctor : ty → args → val;          (* type(args...) *)
  copy_ctor : ty → val → val;           (* type(const type&) *)
  move_ctor : ty → val → val * val;     (* type(type&&): the new object and
                                           what is left of the source *)
  (* whether the constructor, called with these arguments, exits by an
     exception instead of returning; no object is constructed then, and of
     the source of a move is left what [move_ctor] says *)
  default_ctor_throws : ty → bool;
  args_ctor_throws : ty → args → bool;
  copy_ctor_throws : ty → val → bool;
  move_ctor_throws : ty → val → bool;
  val_eq : ty → val → val → bool;       (* operator == of a type *)
  val_lt : ty → val → val → bool;       (* operator < of a type *)
  (* the members of an object of automatic storage duration start out
     indeterminate; the two fields stand for whatever they hold *)
  indeterminate_operation : operation_function ty;
  indeterminate_type_id : N
}.

Section Variant.

Context `{Alternatives ty val args}.

Definition variant_npos : N := size_t_max.

(** *** The type list queries *)

Definition sizeof_TTypes : N := N.of_nat (length TTypes).

(** etl::nth_type_t / type_list_type_at_index: no type past the end. *)
Definition type_from_index (Index : N) : option ty :=
  TTypes !! N.to_nat Index.

Definition variant_alternative_t := type_from_index.

Definition type_list_npos : N := size_t_max.

(** Modelled from the spec: etl::type_list_index_of_type of type_list.h,
    which is not part of the sources at hand.  The spec gives its contract
    as [index_of(type, list) -> index | not_found]; the position is that of
    the first entry equal to the type. *)
Fixpoint type_list_index_of_type (l : list ty) (T : ty) : N :=
  match l with
  | [] => type_list_npos
  | U :: l' =>
      if decide (U = T) then 0
      else
        let r := type_list_index_of_type l' T in
        if r =? type_list_npos then type_list_npos else r + 1
  end.

(** The member alias [index_of_type<T>], which looks for
    [etl::remove_cvref_t<T>]. *)
Definition index_of_type (T : ty) : N :=
  type_list_index_of_type TTypes (remove_cvref_t T).

Definition is_one_of (T : ty) : bool := bool_decide (T ∈ TTypes).

Definition make_index_sequence (n : N) : list N :=
  N.of_nat <$> seq 0 (N.to_nat n).

(** *** Objects and the store *)

(** The operation the constructors and mutators bind for a type. *)
Definition operation_of (type : ty) : operation_function ty :=
  operation_type type (is_copy_constructible type) (is_move_constructible type).

(** A variant object.  [data] is the buffer: the object that currently
    lives in it, with its type, or nothing. *)
Record variant := Variant {
  data : option (ty * val);
  operation : operation_function ty;
  type_id : N
}.

(** What the alternative types and the caller's visitors were asked to do. *)
Inductive event :=
| EvConstruct (T : ty) (x : val)   (* a T was constructed in place as x *)
| EvCopy (T : ty) (x : val)        (* T's copy constructor ran on x *)
| EvMove (T : ty) (x : val)        (* T's move constructor ran on x *)
| EvDestroy (T : ty) (x : val)     (* T's destructor ran on x *)
| EvVisit (T : ty) (x : val)       (* visitor.visit(T&) was called on x *)
| EvCall (T : ty) (x : val).       (* visitor(T&) was called on x *)

Record state := State {
  heap : gmap addr variant;
  trace : list event
}.

Abbreviation Run := (M state).

(** A reference to the buffer of the variant at [ref_addr], narrowed to
    [ref_type] by a [static_cast]. *)
Record reference := Ref { ref_type : ty; ref_addr : addr }.

Definition load (a : addr) : Run variant := λ s,
  match heap s !! a with
  | Some v => Ok v s
  | None => Undefined
  end.

Definition store (a : addr) (v : variant) : Run unit := λ s,
  Ok tt (State (<[a := v]> (heap s)) (trace s)).

Definition emit (e : event) : Run unit := λ s,
  Ok tt (State (heap s) (trace s ++ [e])).

Definition set_data (a : addr) (d : option (ty * val)) : Run unit :=
  v ← load a; store a (Variant d (operation v) (type_id v)).

Definition set_operation (a : addr) (f : operation_function ty) : Run unit :=
  v ← load a; store a (Variant (data v) f (type_id v)).

Definition set_type_id (a : addr) (i : N) : Run unit :=
  v ← load a; store a (Variant (data v) (operation v) i).

(** Dereferencing [reinterpret_cast<T*>(p)]: the T in the buffer at [p].  Reading a
    buffer that holds no live T is undefined. *)
Definition read_as (T : ty) (p : addr) : Run val :=
  v ← load p;
  match data v with
  | Some (U, x) => if decide (U = T) then mret x else undefined
  | None => undefined
  end.

Definition read (r : reference) : Run val := read_as (ref_type r) (ref_addr r).

(** What a function template is given for a parameter [T&& value]: a
    reference to an object of the caller's that is no part of a variant, or
    a reference into the buffer of a variant, as [get] returns it.  The
    object is read when the constructor of the alternative runs. *)
Inductive operand :=
| outside (x : val)
| inside (r : reference).

Definition fetch (value : operand) : Run val :=
  match value with
  | outside x => mret x
  | inside r => read r
  end.

(** A move from the operand leaves it as [y]. *)
Definition leave (value : operand) (y : val) : Run unit :=
  match value with
  | outside _ => mret tt
  | inside r =>
      v ← load (ref_addr r);
      match data v with
      | Some (U, _) => store (ref_addr r) (Variant (Some (U, y)) (operation v) (type_id v))
      | None => undefined
      end
  end.

(** What is given for a pack [TArgs&&... args]: objects of the caller's, or
    arguments made of the value in the buffer of a variant, which the
    constructor of the alternative reads when it runs. *)
Inductive arguments :=
| by_value (a : args)
| from_held (r : reference) (f : val → args).

Definition fetch_args (w : arguments) : Run args :=
  match w with
  | by_value a => mret a
  | from_held r f => x ← read r; mret (f x)
  end.

(** Placement-new at [pstorage] of a T copied from the T that
  [reinterpret_cast<const T*>(pvalue)] points to. *)
Definition placement_copy (T : ty) (pstorage : addr) (pvalue : option addr) : Run unit :=
  match pvalue with
  | None => undefined
  | Some p =>
      x ← read_as T p;
      if copy_ctor_throws T x then throw alternative_exception
      else
        emit (EvCopy T x);;
        set_data pstorage (Some (T, copy_ctor T x))
  end.

(** Placement-new at [pstorage] of a T moved from the T that
  [reinterpret_cast<T*>(pvalue)] points to. *)
Definition placement_move (T : ty) (pstorage : addr) (pvalue : option addr) : Run unit :=
  match pvalue with
  | None => undefined
  | Some p =>
      x ← read_as T p;
      if move_ctor_throws T x then
        set_data p (Some (T, (move_ctor T x).2));;
        throw alternative_exception
      else
        emit (EvMove T x);;
        set_data p (Some (T, (move_ctor T x).2));;
        set_data pstorage (Some (T, (move_ctor T x).1))
  end.

(** [reinterpret_cast<const T*>(pstorage)->~T()] *)
Definition destroy_at (T : ty) (pstorage : addr) : Run unit :=
  x ← read_as T pstorage;
  emit (EvDestroy T x);;
  set_data pstorage None.

(** [operation_type<T, IsCopyable, IsMoveable>::do_operation], one branch
    per specialisation.  The [default:] branches and the null operation
    "should never occur"; outside the unit tests they do nothing. *)
Definition do_operation (f : operation_function ty)
    (operation : Z) (pstorage : addr) (pvalue : option addr) : Run unit :=
  match f with
  | operation_void => mret tt
  | operation_type T false false =>
      if (operation =? Destroy)%Z then destroy_at T pstorage
      else mret tt
  | operation_type T false true =>
      if (operation =? Move)%Z then placement_move T pstorage pvalue
      else if (operation =? Destroy)%Z then destroy_at T pstorage
      else mret tt
  | operation_type T true false =>
      if (operation =? Copy)%Z then placement_copy T pstorage pvalue
      else if (operation =? Destroy)%Z then destroy_at T pstorage
      else mret tt
  | operation_type T true true =>
      if (operation =? Copy)%Z then placement_copy T pstorage pvalue
      else if (operation =? Move)%Z then placement_move T pstorage pvalue
      else if (operation =? Destroy)%Z then destroy_at T pstorage
      else mret tt
  end.

(** *** The member functions of [variant] *)

Definition index (this : addr) : Run N :=
  v ← load this; mret (type_id v).

Definition valueless_by_exception (this : addr) : Run bool :=
  v ← load this; mret (type_id v =? variant_npos).

(** [this->operation(op, data, pvalue)] *)
Definition call_operation (this : addr) (op : Z) (pvalue : option addr) : Run unit :=
  v ← load this; do_operation (operation v) op this pvalue.

(** The placement-new expressions of [default_construct_in_place],
    [construct_in_place_args] and [construct_in_place].  The constructor
    reads its arguments; when it throws, the buffer holds what it held. *)
Definition default_construct_in_place (T : ty) (pstorage : addr) : Run unit :=
  let type := remove_cvref_t T in
  if default_ctor_throws type then throw alternative_exception
  else
    emit (EvConstruct type (default_ctor type));;
    set_data pstorage (Some (type, default_ctor type)).

Definition construct_in_place_args (T : ty) (pstorage : addr) (w : arguments) : Run unit :=
  let type := remove_cvref_t T in
  a ← fetch_args w;
  if args_ctor_throws type a then throw alternative_exception
  else
    emit (EvConstruct type (args_ctor type a));;
    set_data pstorage (Some (type, args_ctor type a)).

(** The two overloads of [construct_in_place]: from an lvalue the value is
    copied, from an rvalue it is moved. *)
Definition construct_in_place_lvalue (T : ty) (pstorage : addr) (value : operand) : Run unit :=
  let type := remove_cvref_t T in
  x ← fetch value;
  if copy_ctor_throws type x then throw alternative_exception
  else
    emit (EvCopy type x);;
    set_data pstorage (Some (type, copy_ctor type x)).

Definition construct_in_place_rvalue (T : ty) (pstorage : addr) (value : operand) : Run unit :=
  let type := remove_cvref_t T in
  x ← fetch value;
  if move_ctor_throws type x then
    leave value (move_ctor type x).2;;
    throw alternative_exception
  else
    emit (EvMove type x);;
    leave value (move_ctor type x).2;;
    set_data pstorage (Some (type, (move_ctor type x).1)).

Definition construct_in_place (rvalue : bool) :=
  if rvalue then construct_in_place_rvalue else construct_in_place_lvalue.

(** [variant()] *)
Definition variant_default_ctor (this : addr) : Run unit :=
  match type_from_index 0 with
  | None => ill_formed
  | Some type =>
      default_construct_in_place type this;;
      set_operation this (operation_of type);;
      set_type_id this 0
  end.

(** [variant(T&& value)]; [rvalue] tells the value category of the
    argument.  The arguments of a constructor are objects that exist before
    the variant does: they are given by value. *)
Definition variant_value_ctor (this : addr) (T : ty) (rvalue : bool) (value : val) : Run unit :=
  static_assert (is_one_of (remove_cvref_t T));;
  set_operation this (operation_of (remove_cvref_t T));;
  set_type_id this (index_of_type T);;
  construct_in_place rvalue (remove_cvref_t T) this (outside value).

(** [variant(etl::in_place_type_t<T>, TArgs&&... args)] *)
Definition variant_in_place_type_ctor (this : addr) (T : ty) (a : args) : Run unit :=
  static_assert (is_one_of (remove_cvref_t T));;
  set_operation this (operation_of (remove_cvref_t T));;
  set_type_id this (index_of_type T);;
  construct_in_place_args (remove_cvref_t T) this (by_value a).

(** [variant(etl::in_place_index_t<Index>, TArgs&&... args)] *)
Definition variant_in_place_index_ctor (this : addr) (Index : N) (a : args) : Run unit :=
  match type_from_index Index with
  | None => ill_formed
  | Some type =>
      static_assert (is_one_of type);;
      set_type_id this Index;;
      construct_in_place_args type this (by_value a);;
      set_operation this (operation_of type)
  end.

(** [variant(const variant& other)] *)
Definition variant_copy_ctor (this other : addr) : Run unit :=
  o ← load other;
  set_operation this (operation o);;
  o ← load other;
  set_type_id this (type_id o);;
  if decide (this ≠ other) then
    i ← index other;
    if i =? variant_npos then set_type_id this variant_npos
    else call_operation this Copy (Some other)
  else mret tt.

(** [variant(variant&& other)] *)
Definition variant_move_ctor (this other : addr) : Run unit :=
  o ← load other;
  set_operation this (operation o);;
  o ← load other;
  set_type_id this (type_id o);;
  if decide (this ≠ other) then
    i ← index other;
    if i =? variant_npos then set_type_id this variant_npos
    else call_operation this Move (Some other)
  else set_type_id this variant_npos.

(** [~variant()] *)
Definition variant_dtor (this : addr) : Run unit :=
  i ← index this;
  (if negb (i =? variant_npos) then call_operation this Destroy None
   else mret tt);;
  set_operation this operation_void;;
  set_type_id this variant_npos.

(** [T& emplace<T>(TArgs&&... args)] *)
Definition emplace_T (this : addr) (T : ty) (w : arguments) : Run reference :=
  static_assert (is_one_of T);;
  let type := remove_cvref_t T in
  call_operation this Destroy None;;
  construct_in_place_args type this w;;
  set_operation this (operation_of type);;
  set_type_id this (index_of_type T);;
  mret (Ref T this).

(** [variant_alternative_t<Index, variant>& emplace<Index>(TArgs&&... args)] *)
Definition emplace_Index (this : addr) (Index : N) (w : arguments) : Run reference :=
  static_assert (Index <? sizeof_TTypes);;
  match type_from_index Index with
  | None => ill_formed
  | Some type =>
      call_operation this Destroy None;;
      construct_in_place_args type this w;;
      set_operation this (operation_of type);;
      set_type_id this Index;;
      mret (Ref type this)
  end.

(** [variant& operator =(T&& value)] *)
Definition assign_value (this : addr) (T : ty) (rvalue : bool) (value : operand) : Run unit :=
  let type := remove_cvref_t T in
  static_assert (is_one_of type);;
  call_operation this Destroy None;;
  construct_in_place rvalue type this value;;
  set_operation this (operation_of type);;
  set_type_id this (index_of_type type).

(** [variant& operator =(const variant& other)] *)
Definition copy_assign (this other : addr) : Run unit :=
  if decide (this ≠ other) then
    i ← index other;
    if i =? variant_npos then set_type_id this variant_npos
    else
      call_operation this Destroy None;;
      o ← load other;
      set_operation this (operation o);;
      call_operation this Copy (Some other);;
      o ← load other;
      set_type_id this (type_id o)
  else mret tt.

(** [variant& operator =(variant&& other)] *)
Definition move_assign (this other : addr) : Run unit :=
  if decide (this ≠ other) then
    i ← index other;
    if i =? variant_npos then set_type_id this variant_npos
    else
      call_operation this Destroy None;;
      o ← load other;
      set_operation this (operation o);;
      call_operation this Move (Some other);;
      o ← load other;
      set_type_id this (type_id o)
  else mret tt.

(** [static constexpr bool is_supported_type<T>()] *)
Definition is_supported_type (T : ty) : bool := is_one_of (remove_cvref_t T).

(** [bool is_type<T>()], both overloads. *)
Definition is_type (this : addr) (T : ty) : Run bool :=
  if is_supported_type T then v ← load this; mret (type_id v =? index_of_type T)
  else mret false.

(** *** Storage for local variables *)

(** An address above every address in use. *)
Definition fresh_addr (h : gmap addr variant) : addr :=
  map_fold (λ a _ m, Nat.max (S a) m) 0%nat h.

(** A local variable: its storage is fresh and its members are
    indeterminate. *)
Definition alloca : Run addr := λ s,
  let a := fresh_addr (heap s) in
  Ok a (State (<[a := Variant None indeterminate_operation indeterminate_type_id]> (heap s))
              (trace s)).

Definition dealloca (a : addr) : Run unit := λ s,
  Ok tt (State (delete a (heap s)) (trace s)).

(** [void swap(variant& rhs) noexcept]: [temp] is destroyed when the
    function returns. *)
Definition swap (this rhs : addr) : Run unit :=
  noexcept
    (temp ← alloca;
     variant_move_ctor temp this;;
     move_assign this rhs;;
     move_assign rhs temp;;
     variant_dtor temp;;
     dealloca temp).

(** *** The free functions *)

(** [holds_alternative<T>(v)] *)
Definition holds_alternative_T (T : ty) (v : addr) : Run bool :=
  let Index := type_list_index_of_type TTypes T in
  if Index =? variant_npos then mret false
  else i ← index v; mret (i =? Index).

(** [holds_alternative<Index>(v)] and [holds_alternative(index, v)] *)
Definition holds_alternative_Index (Index : N) (v : addr) : Run bool :=
  i ← index v; mret (Index =? i).

(** The four overloads of [get<Index>].  The [static_assert] on the index
    and the alias [type] are settled at compile time, before anything runs. *)

(** [get<Index>(variant& v)] *)
Definition get_Index_lvalue (Index : N) (v : addr) : Run reference :=
  static_assert (Index <? sizeof_TTypes);;
  match variant_alternative_t Index with
  | None => ill_formed
  | Some type =>
      i ← index v;
      ETL_ASSERT (Index =? i) variant_incorrect_type_exception;;
      mret (Ref type v)
  end.

(** [get<Index>(variant&& v)] *)
Definition get_Index_rvalue (Index : N) (v : addr) : Run reference :=
  static_assert (Index <? sizeof_TTypes);;
  match variant_alternative_t Index with
  | None => ill_formed
  | Some type => mret (Ref type v)
  end.

(** [get<Index>(const variant& v)] *)
Definition get_Index_const_lvalue (Index : N) (v : addr) : Run reference :=
  static_assert (Index <? sizeof_TTypes);;
  match variant_alternative_t Index with
  | None => ill_formed
  | Some type =>
      i ← index v;
      ETL_ASSERT (Index =? i) variant_incorrect_type_exception;;
      mret (Ref type v)
  end.

(** [get<Index>(const variant&& v)] *)
Definition get_Index_const_rvalue (Index : N) (v : addr) : Run reference :=
  static_assert (Index <? sizeof_TTypes);;
  match variant_alternative_t Index with
  | None => ill_formed
  | Some type =>
      i ← index v;
      ETL_ASSERT (Index =? i) variant_incorrect_type_exception;;
      mret (Ref type v)
  end.

(** The four overloads of [get<T>]. *)

(** [get<T>(variant& v)] *)
Definition get_T_lvalue (T : ty) (v : addr) : Run reference :=
  let Index := type_list_index_of_type TTypes T in get_Index_lvalue Index v.

(** [get<T>(variant&& v)] *)
Definition get_T_rvalue (T : ty) (v : addr) : Run reference :=
  let Index := type_list_index_of_type TTypes T in get_Index_rvalue Index v.

(** [get<T>(const variant& v)] *)
Definition get_T_const_lvalue (T : ty) (v : addr) : Run reference :=
  let Index := type_list_index_of_type TTypes T in get_Index_const_lvalue Index v.

(** [get<T>(const variant&& v)] *)
Definition get_T_const_rvalue (T : ty) (v : addr) : Run reference :=
  let Index := type_list_index_of_type TTypes T in get_Index_const_rvalue Index v.

(** How a variant is passed, which selects the overload of [get]. *)
Inductive value_category := lvalue | rvalue | const_lvalue | const_rvalue.

Definition get_Index (c : value_category) : N → addr → Run reference :=
  match c with
  | lvalue => get_Index_lvalue
  | rvalue => get_Index_rvalue
  | const_lvalue => get_Index_const_lvalue
  | const_rvalue => get_Index_const_rvalue
  end.

Definition get_T (c : value_category) : ty → addr → Run reference :=
  match c with
  | lvalue => get_T_lvalue
  | rvalue => get_T_rvalue
  | const_lvalue => get_T_const_lvalue
  | const_rvalue => get_T_const_rvalue
  end.

(** *** Visitation through [accept] *)

(** [visitor.visit(v)] and [visitor(v)]: the caller's code, of which the
    model records that it was called and on what. *)
Definition call_visit (r : reference) : Run unit :=
  x ← read r; emit (EvVisit (ref_type r) x).

Definition call_functor (r : reference) : Run unit :=
  x ← read r; emit (EvCall (ref_type r) x).

(** [bool attempt_visitor<Index>(TVisitor& visitor)] *)
Definition attempt_visitor (this : addr) (Index : N) : Run bool :=
  i ← index this;
  if Index =? i then
    v ← get_Index_lvalue Index this;
    call_visit v;;
    mret true
  else mret false.

(** [bool attempt_operator<Index>(TVisitor& visitor)] *)
Definition attempt_operator (this : addr) (Index : N) : Run bool :=
  i ← index this;
  if Index =? i then
    v ← get_Index_lvalue Index this;
    call_functor v;;
    mret true
  else mret false.

(** The fold [(attempt<I>(visitor) || ...)]: left to right, stopping at the
    first [true]; [false] for the empty pack. *)
Fixpoint fold_or (attempt : N → Run bool) (I : list N) : Run bool :=
  match I with
  | [] => mret false
  | i :: I' =>
      attempt i ≫= λ b : bool, if b then mret true else fold_or attempt I'
  end.

(** [void do_visitor(TVisitor&, etl::index_sequence<I...>)], the C++17
    branch; the other one dispatches through variant_select_do_visitor.h,
    which is not among the sources at hand. *)
Definition do_visitor (this : addr) (I : list N) : Run unit :=
  fold_or (attempt_visitor this) I;; mret tt.

(** [void do_operator(TVisitor&, etl::index_sequence<I...>)] *)
Definition do_operator (this : addr) (I : list N) : Run unit :=
  fold_or (attempt_operator this) I;; mret tt.

(** [accept(TVisitor& v)] for an etl::visitor, and [accept_visitor]. *)
Definition accept_visitor (this : addr) : Run unit :=
  do_visitor this (make_index_sequence sizeof_TTypes).

(** [accept(TVisitor& v)] for a generic functor, and [accept_functor]. *)
Definition accept_functor (this : addr) : Run unit :=
  do_operator this (make_index_sequence sizeof_TTypes).

(** *** etl::visit *)

Section Visit.

Context {TRet : Type}.

(** A callable takes the narrowed references, one per variant. *)
Definition callable := list reference → Run TRet.

(** [constexpr_visit_closure]: binds [get<tIndex>(variant)] as the first
    argument of the callable. *)
Definition constexpr_visit_closure (c : value_category)
    (callable_ : callable) (variant_ : addr) (tIndex : N) : callable :=
  λ args : list reference,
    r ← get_Index c tIndex variant_; callable_ (r :: args).

(** [do_visit] with the [do_visit_single] it jumps to: the one for the last
    variant calls the callable, the other one goes on with the next variant.
    Indexing [jmp_table] past its end is undefined. *)
Fixpoint do_visit (c : value_category) (f : callable) (v : addr) (variants : list addr)
    : Run TRet :=
  b ← valueless_by_exception v;
  ETL_ASSERT (negb b) bad_variant_access;;
  i ← index v;
  if i <? sizeof_TTypes then
    match variants with
    | [] => r ← get_Index c i v; f [r]
    | next :: vs => do_visit c (constexpr_visit_closure c f v i) next vs
    end
  else undefined.

(** [etl::visit(f, v, vs...)] *)
Definition visit (c : value_category) (f : callable) (v : addr) (vs : list addr) : Run TRet :=
  do_visit c f v vs.

End Visit.

(** *** Comparison *)

(** [equality_visitor<TVariant>::operator()(const TValue& lhs_downcasted)] *)
Definition equality_visitor (rhs : addr) : @callable bool :=
  λ args : list reference,
    match args with
    | [lhs_downcasted] =>
        let TValue := ref_type lhs_downcasted in
        r ← get_T_const_lvalue TValue rhs;
        x ← read lhs_downcasted;
        y ← read r;
        mret (val_eq TValue x y)
    | _ => ill_formed
    end.

(** [less_than_visitor<TVariant>::operator()(const TValue& lhs_downcasted)] *)
Definition less_than_visitor (rhs : addr) : @callable bool :=
  λ args : list reference,
    match args with
    | [lhs_downcasted] =>
        let TValue := ref_type lhs_downcasted in
        r ← get_T_const_lvalue TValue rhs;
        x ← read lhs_downcasted;
        y ← read r;
        mret (val_lt TValue x y)
    | _ => ill_formed
    end.

(** [operator ==(const variant& lhs, const variant& rhs)] *)
Definition operator_eq (lhs rhs : addr) : Run bool :=
  lv ← valueless_by_exception lhs;
  rv ← valueless_by_exception rhs;
  if lv && rv then mret true
  else if lv || rv then mret false
  else
    li ← index lhs;
    ri ← index rhs;
    if negb (li =? ri) then mret false
    else visit const_lvalue (equality_visitor rhs) lhs [].

(** [operator !=] *)
Definition operator_ne (lhs rhs : addr) : Run bool :=
  b ← operator_eq lhs rhs; mret (negb b).

(** [operator <(const variant& lhs, const variant& rhs)] *)
Definition operator_lt (lhs rhs : addr) : Run bool :=
  lv ← valueless_by_exception lhs;
  rv ← valueless_by_exception rhs;
  if lv && rv then mret false
  else if lv then mret true
  else if rv then mret false
  else
    li ← index lhs;
    ri ← index rhs;
    if negb (li =? ri) then mret (li <? ri)
    else visit const_lvalue (less_than_visitor rhs) lhs [].

(** [operator >], [operator <=], [operator >=] *)
Definition operator_gt (lhs rhs : addr) : Run bool := operator_lt rhs lhs.

Definition operator_le (lhs rhs : addr) : Run bool :=
  b ← operator_gt lhs rhs; mret (negb b).

Definition operator_ge (lhs rhs : addr) : Run bool :=
  b ← operator_lt lhs rhs; mret (negb b).

(** *** Further members and free functions *)

(** [bool is_same_type(const variant& other)] *)
Definition is_same_type (this other : addr) : Run bool :=
  v ← load this; o ← load other; mret (type_id v =? type_id o).

(** [etl::swap(lhs, rhs)] *)
Definition swap_variants (lhs rhs : addr) : Run unit := swap lhs rhs.

(** [variant_size<variant<TTypes...>>::value] *)
Definition variant_size : N := sizeof_TTypes.

(** The overloads of [get_if], which are [noexcept].  [pv] is a pointer:
    null, or the address of a variant.  The call [etl::get<Index>] is
    instantiated whichever branch runs, so its [static_assert] and its return
    type are settled first. *)

(** [get_if<Index>(variant* pv)] *)
Definition get_if_Index (Index : N) (pv : option addr) : Run (option reference) :=
  static_assert (Index <? sizeof_TTypes);;
  match variant_alternative_t Index with
  | None => ill_formed
  | Some _ =>
      noexcept
        match pv with
        | Some p =>
            i ← index p;
            if i =? Index then r ← get_Index_lvalue Index p; mret (Some r)
            else mret None
        | None => mret None
        end
  end.

(** [get_if<Index>(const variant* pv)] *)
Definition get_if_Index_const (Index : N) (pv : option addr) : Run (option reference) :=
  static_assert (Index <? sizeof_TTypes);;
  match variant_alternative_t Index with
  | None => ill_formed
  | Some _ =>
      noexcept
        match pv with
        | Some p =>
            i ← index p;
            if i =? Index then r ← get_Index_const_lvalue Index p; mret (Some r)
            else mret None
        | None => mret None
        end
  end.

(** [get_if<T>(variant* pv)] *)
Definition get_if_T (T : ty) (pv : option addr) : Run (option reference) :=
  let Index := type_list_index_of_type TTypes T in
  static_assert (Index <? sizeof_TTypes);;
  match variant_alternative_t Index with
  | None => ill_formed
  | Some _ =>
      noexcept
        match pv with
        | Some p =>
            i ← index p;
            if i =? Index then r ← get_Index_lvalue Index p; mret (Some r)
            else mret None
        | None => mret None
        end
  end.

(** [get_if<T>(const variant* pv)] *)
Definition get_if_T_const (T : ty) (pv : option addr) : Run (option reference) :=
  let Index := type_list_index_of_type TTypes T in
  static_assert (Index <? sizeof_TTypes);;
  match variant_alternative_t Index with
  | None => ill_formed
  | Some _ =>
      noexcept
        match pv with
        | Some p =>
            i ← index p;
            if i =? Index then r ← get_Index_const_lvalue Index p; mret (Some r)
            else mret None
        | None => mret None
        end
  end.

(** [operator <=>], where the three-way comparison of the alternative types
    is [val_cmp]. *)
Section ThreeWay.

Variable val_cmp : ty → val → val → comparison.

(** [compare_visitor<TVariant>::operator()(const TValue& lhs_downcasted)] *)
Definition compare_visitor (rhs : addr) : @callable comparison :=
  λ args : list reference,
    match args with
    | [lhs_downcasted] =>
        let TValue := ref_type lhs_downcasted in
        r ← get_T_const_lvalue TValue rhs;
        x ← read lhs_downcasted;
        y ← read r;
        mret (val_cmp TValue x y)
    | _ => ill_formed
    end.

(** [operator <=>(const variant& lhs, const variant& rhs)] *)
Definition operator_spaceship (lhs rhs : addr) : Run comparison :=
  lv ← valueless_by_exception lhs;
  rv ← valueless_by_exception rhs;
  if lv && rv then mret Eq
  else if lv then mret Lt
  else if rv then mret Gt
  else
    li ← index lhs;
    ri ← index rhs;
    if negb (li =? ri) then mret (li ?= ri)
    else visit const_lvalue (compare_visitor rhs) lhs [].

End ThreeWay.


(** The order of the tags that [<] uses where it does not look at the held
    values: the sentinel first, then the indices. *)
Definition tag_less (ta tb : N) : bool :=
  if ta =? variant_npos then negb (tb =? variant_npos)
  else if tb =? variant_npos then false
  else ta <? tb.

(** *** The invariant of the data model *)

#[global] Instance operation_function_eq_dec : EqDecision (operation_function ty).
Proof. solve_decision. Defined.

(** Tag, operation binding and storage agree: a valueless variant has an
    empty buffer and the null operation bound, through which no destructor
    is run; a variant with tag [i] has a live object of the [i]-th type in
    its buffer and the operation of that type bound. *)
Definition consistent (v : variant) : bool :=
  if type_id v =? variant_npos then
    match data v with
    | None => bool_decide (operation v = operation_void)
    | Some _ => false
    end
  else
    match type_from_index (type_id v), data v with
    | Some T, Some (U, _) =>
        bool_decide (U = T) && bool_decide (operation v = operation_of T)
    | _, _ => false
    end.

(** [r] is the reference to the value that the variant at [a] holds: a
    reference to its buffer narrowed to the type of the live value there. *)
Definition refers_to_held (h : gmap addr variant) (a : addr) (r : reference) : Prop :=
  ref_addr r = a
  ∧ ∃ o x, h !! a = Some o ∧ consistent o = true ∧ type_id o ≠ variant_npos
           ∧ data o = Some (ref_type r, x).

(** The operand is no part of the variant at [this]: it is an object [x] of
    the caller's, or a reference to the [x] that another variant holds. *)
Definition operand_outside (value : operand) (this : addr) (h : gmap addr variant)
    (x : val) : Prop :=
  match value with
  | outside x' => x' = x
  | inside r =>
      ref_addr r ≠ this
      ∧ ∃ o, h !! ref_addr r = Some o ∧ data o = Some (ref_type r, x)
  end.

(** The arguments are no part of the variant at [this]: they are objects
    [a] of the caller's, or are made of the value that another variant
    holds. *)
Definition args_outside (w : arguments) (this : addr) (h : gmap addr variant)
    (a : args) : Prop :=
  match w with
  | by_value a' => a' = a
  | from_held r f =>
      ref_addr r ≠ this
      ∧ ∃ o x, h !! ref_addr r = Some o ∧ data o = Some (ref_type r, x) ∧ f x = a
  end.

(** The store after a move from the operand has left it as [y]. *)
Definition left_as (value : operand) (y : val) (h : gmap addr variant)
    : gmap addr variant :=
  match value with
  | outside _ => h
  | inside r =>
      match h !! ref_addr r with
      | Some o => <[ref_addr r := Variant (Some (ref_type r, y)) (operation o) (type_id o)]> h
      | None => h
      end
  end.

(** What the destruction of the value that a variant holds adds to the
    trace. *)
Definition destruction (v : variant) : list event :=
  match data v with
  | Some (U, y) => [EvDestroy U y]
  | None => []
  end.

(** The object at an address of the store satisfies the invariant. *)
Definition consistent_at (s : state) (a : addr) : Prop :=
  ∃ v, heap s !! a = Some v ∧ consistent v = true.







(** The destructor calls of a trace, in order. *)
Definition destroyed (tr : list event) : list (ty * val) :=
  omap (λ e, match e with EvDestroy T x => Some (T, x) | _ => None end) tr.

(** The calls into the caller's visitor or functor, in order. *)
Definition visited (tr : list event) : list (ty * val) :=
  omap (λ e, match e with
             | EvVisit T x | EvCall T x => Some (T, x)
             | _ => None
             end) tr.

End Variant.

Arguments variant : clear implicits.
Arguments event : clear implicits.
Arguments state : clear implicits.
Arguments reference : clear implicits.

(** ** Concrete instantiations *)

Module Example.

(** [T_mutex] stands for a type that can be neither copied nor moved,
    [T_fuse] for a type whose constructors throw, and [T_const_int] is
    [const int]. *)
Inductive type := T_int | T_string | T_bool | T_mutex | T_fuse | T_const_int.

#[global] Instance type_eq_dec : EqDecision type.
Proof. solve_decision. Defined.

Inductive value :=
| V_int (z : Z)
| V_string (s : string)
| V_bool (b : bool)
| V_mutex (locked : bool)
| V_fuse (blown : bool).

#[global] Instance value_eq_dec : EqDecision value.
Proof. solve_decision. Defined.

(** A moved-from string is empty; the scalars are left as they were. *)
Definition move_value (x : value) : value * value :=
  match x with
  | V_string _ => (x, V_string ""%string)
  | _ => (x, x)
  end.

Definition less_value (x y : value) : bool :=
  match x, y with
  | V_int a, V_int b => (a <? b)%Z
  | V_string a, V_string b => String.ltb a b
  | V_bool a, V_bool b => negb a && b
  | _, _ => false
  end.

(** A three-way comparison of values that agrees with equality and with
    [less_value]. *)
Definition compare_value (x y : value) : comparison :=
  if bool_decide (x = y) then Eq else if less_value x y then Lt else Gt.

Definition strip (T : type) : type :=
  match T with
  | T_const_int => T_int
  | _ => T
  end.

Definition unqualified (T : type) : bool :=
  match T with
  | T_const_int => false
  | _ => true
  end.

Lemma strip_idemp T : strip (strip T) = strip T.
Proof. by destruct T. Qed.

Lemma strip_unqualified (pack : list type) :
  forallb unqualified pack = true → ∀ T, T ∈ pack → strip T = T.
Proof.
  intros Hq T Hin. apply list_elem_of_In in Hin.
  rewrite forallb_forall in Hq. specialize (Hq T Hin). by destruct T.
Qed.

(** A fuse cannot be constructed blown, and cannot be copied or moved: these
    constructors throw. *)
Definition throws_on_construction (T : type) (a : value) : bool :=
  match T, a with
  | T_fuse, V_fuse true => true
  | _, _ => false
  end.

Definition throws_on_copy (T : type) (x : value) : bool :=
  match T with
  | T_fuse => true
  | _ => false
  end.

(** The instantiation over a given pack of types without qualifiers, on a
    platform whose [size_t] has 64 bits.  A constructor is given the value
    to build as its argument. *)
Definition instantiate (pack : list type) (Hq : forallb unqualified pack = true)
    : Alternatives type value value := {|
  size_t_max := 18446744073709551615;
  TTypes := pack;
  remove_cvref_t := strip;
  remove_cvref_t_idemp := strip_idemp;
  TTypes_unqualified := strip_unqualified pack Hq;
  is_copy_constructible := λ T, match T with T_mutex => false | _ => true end;
  is_move_constructible := λ T, match T with T_mutex => false | _ => true end;
  default_ctor := λ T,
    match T with
    | T_int | T_const_int => V_int 0
    | T_string => V_string ""%string
    | T_bool => V_bool false
    | T_mutex => V_mutex false
    | T_fuse => V_fuse false
    end;
  args_ctor := λ _ a, a;
  copy_ctor := λ _ x, x;
  move_ctor := λ _, move_value;
  default_ctor_throws := λ _, false;
  args_ctor_throws := throws_on_construction;
  copy_ctor_throws := throws_on_copy;
  move_ctor_throws := throws_on_copy;
  val_eq := λ _ x y, bool_decide (x = y);
  val_lt := λ _, less_value;
  indeterminate_operation := operation_void;
  indeterminate_type_id := 0
|}.

(** [etl::variant<int, string, bool>] *)
Definition int_string_bool := instantiate [T_int; T_string; T_bool] eq_refl.

(** [etl::variant<int, int>] *)
Definition int_int := instantiate [T_int; T_int] eq_refl.

(** [etl::variant<mutex, int>] *)
Definition mutex_int := instantiate [T_mutex; T_int] eq_refl.

(** [etl::variant<fuse, int>] *)
Definition fuse_int := instantiate [T_fuse; T_int] eq_refl.

Definition npos : N := 18446744073709551615.

(** Objects of [etl::variant<int, string, bool>]: one that holds the int 5,
    one that holds the string "z", a valueless one, as move construction
    from itself or a destructor leaves it, and raw storage for an object
    still to be constructed. *)
Definition holds_int_5 : variant type value :=
  Variant (Some (T_int, V_int 5)) (operation_type T_int true true) 0.

Definition holds_string_z : variant type value :=
  Variant (Some (T_string, V_string "z"%string)) (operation_type T_string true true) 1.

Definition valueless : variant type value := Variant None operation_void npos.

Definition raw_storage : variant type value := Variant None operation_void 0.

Definition sample_store : gmap nat (variant type value) :=
  <[1%nat := holds_int_5]> (<[2%nat := holds_string_z]>
    (<[3%nat := valueless]> (<[4%nat := raw_storage]> ∅))).

Definition sample : state type value := State sample_store [].

(** Raw storage at the addresses of [sample_store]. *)
Definition raw_store : gmap nat (variant type value) :=
  <[1%nat := raw_storage]> (<[2%nat := raw_storage]>
    (<[3%nat := raw_storage]> (<[4%nat := raw_storage]> ∅))).

(** Two objects of [etl::variant<int, int>] that hold 7 in the second
    alternative, as [in_place_index_t<1>] constructs them. *)
Definition second_int_7 : variant type value :=
  Variant (Some (T_int, V_int 7)) (operation_type T_int true true) 1.

Definition int_int_store : gmap nat (variant type value) :=
  <[1%nat := second_int_7]> (<[2%nat := second_int_7]> ∅).

(** Objects of [etl::variant<mutex, int>]: one that holds an unlocked mutex,
    as the default constructor builds it, one that holds the int 5, and raw
    storage. *)
Definition holds_mutex : variant type value :=
  Variant (Some (T_mutex, V_mutex false)) (operation_type T_mutex false false) 0.

Definition second_int_5 : variant type value :=
  Variant (Some (T_int, V_int 5)) (operation_type T_int true true) 1.

Definition mutex_int_store : gmap nat (variant type value) :=
  <[1%nat := holds_mutex]> (<[2%nat := second_int_5]> (<[4%nat := raw_storage]> ∅)).

Definition mutex_int_start : state type value := State mutex_int_store [].

(** Objects of [etl::variant<fuse, int>]: one that holds an intact fuse, one
    that holds the int 5, and raw storage. *)
Definition holds_fuse : variant type value :=
  Variant (Some (T_fuse, V_fuse false)) (operation_type T_fuse true true) 0.

Definition fuse_int_store : gmap nat (variant type value) :=
  <[1%nat := holds_fuse]> (<[2%nat := second_int_5]> (<[4%nat := raw_storage]> ∅)).

Definition fuse_int_start : state type value := State fuse_int_store [].

(** Storage whose members hold what was left there: the operation of int
    and some tag. *)
Definition used_storage : variant type value :=
  Variant None (operation_type T_int true true) 7.

End Example.

(** ** Symbolic execution *)

(** The model's functions are unfolded down to the store, and the store is
    kept normalised while the lookups are resolved. *)
Ltac unfold_run :=
  unfold call_operation, index, valueless_by_exception,
    default_construct_in_place, construct_in_place_args, construct_in_place,
    construct_in_place_lvalue, construct_in_place_rvalue,
    fetch, fetch_args, leave,
    placement_copy, placement_move, destroy_at, read, read_as,
    set_data, set_operation, set_type_id, ETL_ASSERT, static_assert,
    throw, undefined, ill_formed, load, store, emit,
    mbind, M_bind, mret, M_ret.

Ltac run_step :=
  first
    [ progress cbn [heap trace data operation type_id ref_type ref_addr
                    Z.eqb Pos.eqb Copy Move Destroy negb andb orb]
    | rewrite lookup_insert_eq
    | rewrite lookup_insert_ne by done
    | rewrite insert_insert_eq
    | rewrite decide_True by done
    | rewrite decide_False by done
    | match goal with
      | E : ?h !! ?a = Some _ |- context [?h !! ?a] => rewrite E
      | E : data ?v = _ |- context [data ?v] => rewrite E
      | E : operation ?v = _ |- context [operation ?v] => rewrite E
      | E : type_id ?v = _ |- context [type_id ?v] => rewrite E
      | E : (?a =? ?b) = _ |- context [?a =? ?b] => rewrite E
      | E : (?a <? ?b) = _ |- context [?a <? ?b] => rewrite E
      | E : default_ctor_throws ?T = _ |- context [default_ctor_throws ?T] =>
          rewrite E
      | E : args_ctor_throws ?T ?a = _ |- context [args_ctor_throws ?T ?a] =>
          rewrite E
      | E : copy_ctor_throws ?T ?x = _ |- context [copy_ctor_throws ?T ?x] =>
          rewrite E
      | E : move_ctor_throws ?T ?x = _ |- context [move_ctor_throws ?T ?x] =>
          rewrite E
      end ].

Ltac run := unfold_run; repeat run_step.

(** The same, leaving the calls through [operation] for their lemmas. *)
Ltac unfold_members :=
  unfold index, valueless_by_exception,
    default_construct_in_place, construct_in_place_args, construct_in_place,
    construct_in_place_lvalue, construct_in_place_rvalue,
    fetch, fetch_args, leave, read, read_as,
    set_data, set_operation, set_type_id, ETL_ASSERT, static_assert,
    throw, undefined, ill_formed, load, store, emit,
    mbind, M_bind, mret, M_ret.

Ltac run_members := unfold_members; repeat run_step.

(** A lookup in a store built by insertions at known addresses. *)
Ltac solve_lookup :=
  repeat first [ rewrite lookup_insert_eq | rewrite lookup_insert_ne by done ];
  first [ reflexivity | eassumption ].

(** Two stores are equal when they agree at every address. *)
Ltac heap_eq :=
  lazymatch goal with
  | |- Ok ?a (State ?h1 ?t1) = Ok ?a (State ?h2 ?t2) =>
      replace h1 with h2; [ by rewrite <- ?app_assoc | ]
  | |- _ => idtac
  end;
  apply map_eq; intros ?;
  repeat (rewrite ?lookup_delete, ?lookup_insert; case_decide);
  subst; try done; try congruence.

Section Properties.

Context `{Alternatives ty val args}.

Implicit Types (s : state ty val) (h : gmap nat (variant ty val))
  (tr : list (event ty val)) (v o : variant ty val) (T U : ty) (x y : val).

(** *** The type list *)

Lemma type_from_index_lt Index T :
  type_from_index Index = Some T → Index < sizeof_TTypes.
Proof.
  unfold type_from_index, sizeof_TTypes. intros E.
  apply lookup_lt_Some in E. lia.
Qed.

Lemma type_from_index_is_one_of Index T :
  type_from_index Index = Some T → is_one_of T = true.
Proof.
  intros E. apply bool_decide_eq_true. by eapply list_elem_of_lookup_2.
Qed.

(** *** The dispatcher *)

Lemma call_operation_Destroy h tr this v U x c m :
  h !! this = Some v → operation v = operation_type U c m → data v = Some (U, x) →
  call_operation this Destroy None (State h tr)
  = Ok tt (State (<[this := Variant None (operation v) (type_id v)]> h)
                 (tr ++ [EvDestroy U x])).
Proof.
  intros Hv Ho Hd. unfold call_operation, do_operation. run.
  by destruct c, m; run.
Qed.

Lemma call_operation_void h tr this v op pv :
  h !! this = Some v → operation v = operation_void →
  call_operation this op pv (State h tr) = Ok tt (State h tr).
Proof. intros Hv Ho. unfold call_operation, do_operation. by run. Qed.

Lemma call_operation_Copy h tr this other v o T x m :
  h !! this = Some v → h !! other = Some o →
  operation v = operation_type T true m → data o = Some (T, x) →
  copy_ctor_throws T x = false →
  call_operation this Copy (Some other) (State h tr)
  = Ok tt (State (<[this := Variant (Some (T, copy_ctor T x)) (operation v) (type_id v)]> h)
                 (tr ++ [EvCopy T x])).
Proof.
  intros Hv Hother Ho Hd Hr. unfold call_operation, do_operation. run.
  by destruct m; run.
Qed.

Lemma call_operation_Copy_throws h tr this other v o T x m :
  h !! this = Some v → h !! other = Some o →
  operation v = operation_type T true m → data o = Some (T, x) →
  copy_ctor_throws T x = true →
  call_operation this Copy (Some other) (State h tr)
  = Throw alternative_exception (State h tr).
Proof.
  intros Hv Hother Ho Hd Hr. unfold call_operation, do_operation. run.
  by destruct m; run.
Qed.

Lemma call_operation_Move h tr this other v o T x c :
  this ≠ other → h !! this = Some v → h !! other = Some o →
  operation v = operation_type T c true → data o = Some (T, x) →
  move_ctor_throws T x = false →
  call_operation this Move (Some other) (State h tr)
  = Ok tt (State (<[this := Variant (Some (T, (move_ctor T x).1)) (operation v) (type_id v)]>
                    (<[other := Variant (Some (T, (move_ctor T x).2)) (operation o) (type_id o)]> h))
                 (tr ++ [EvMove T x])).
Proof.
  intros Hne Hv Hother Ho Hd Hr. unfold call_operation, do_operation. run.
  by destruct c; run.
Qed.

Lemma call_operation_Move_throws h tr this other v o T x c :
  this ≠ other → h !! this = Some v → h !! other = Some o →
  operation v = operation_type T c true → data o = Some (T, x) →
  move_ctor_throws T x = true →
  call_operation this Move (Some other) (State h tr)
  = Throw alternative_exception
      (State (<[other := Variant (Some (T, (move_ctor T x).2)) (operation o) (type_id o)]> h)
             tr).
Proof.
  intros Hne Hv Hother Ho Hd Hr. unfold call_operation, do_operation. run.
  by destruct c; run.
Qed.

(** *** The invariant *)

Lemma consistent_live v :
  consistent v = true → type_id v ≠ variant_npos →
  ∃ T x, type_from_index (type_id v) = Some T ∧ data v = Some (T, x)
         ∧ operation v = operation_of T.
Proof.
  unfold consistent. intros C L.
  apply N.eqb_neq in L. rewrite L in C.
  destruct (type_from_index (type_id v)) as [T|]; [|done].
  destruct (data v) as [[U x]|]; [|done].
  apply andb_true_iff in C as [C1 C2].
  apply bool_decide_eq_true in C1, C2. subst U. eauto.
Qed.

Lemma consistent_valueless v :
  consistent v = true → type_id v = variant_npos →
  data v = None ∧ operation v = operation_void.
Proof.
  unfold consistent. intros C L. rewrite L, N.eqb_refl in C.
  destruct (data v); [done|]. by apply bool_decide_eq_true in C.
Qed.

Lemma consistent_intro T x i :
  i ≠ variant_npos → type_from_index i = Some T →
  consistent (Variant (Some (T, x)) (operation_of T) i) = true.
Proof.
  intros L E. unfold consistent. cbn [type_id data operation].
  apply N.eqb_neq in L. rewrite L, E.
  by rewrite !bool_decide_eq_true_2.
Qed.

Lemma consistent_has_data v T x :
  consistent v = true → data v = Some (T, x) → type_id v ≠ variant_npos.
Proof.
  intros C Hd L. destruct (consistent_valueless v C L) as [E _]. congruence.
Qed.

Lemma destroyed_app (tr1 tr2 : list (event ty val)) :
  destroyed (tr1 ++ tr2) = destroyed tr1 ++ destroyed tr2.
Proof. apply omap_app. Qed.

(** Through the operation of a variant that satisfies the invariant,
    Destroy runs the destructor of the held value, if there is one, and
    empties the buffer. *)
Lemma call_operation_Destroy_consistent h tr this v :
  h !! this = Some v → consistent v = true →
  call_operation this Destroy None (State h tr)
  = Ok tt (State (<[this := Variant None (operation v) (type_id v)]> h)
                 (tr ++ destruction v)).
Proof.
  intros Hv C. destruct (decide (type_id v = variant_npos)) as [L|L].
  - destruct (consistent_valueless v C L) as [Hd Ho].
    rewrite (call_operation_void h tr this v) by done.
    unfold destruction. rewrite Hd, app_nil_r, <- Hd.
    replace (Variant (data v) (operation v) (type_id v)) with v by by destruct v.
    by rewrite insert_id.
  - destruct (consistent_live v C L) as (T & x & _ & Hd & Ho).
    unfold destruction. rewrite Hd.
    by eapply call_operation_Destroy.
Qed.

(** *** The index of a type *)

Lemma type_list_index_of_type_not_member (l : list ty) T :
  T ∉ l → type_list_index_of_type l T = type_list_npos.
Proof.
  induction l as [|U l IH]; [done|].
  intros Hn. apply not_elem_of_cons in Hn as [Hne Hn].
  cbn [type_list_index_of_type]. rewrite decide_False by done.
  by rewrite IH, N.eqb_refl.
Qed.

Lemma type_list_index_of_type_member (l : list ty) T :
  T ∈ l → N.of_nat (length l) ≤ size_t_max →
  type_list_index_of_type l T < N.of_nat (length l)
  ∧ l !! N.to_nat (type_list_index_of_type l T) = Some T.
Proof.
  induction l as [|U l IH]; [by intros ?%elem_of_nil|].
  intros Hin Hlen. cbn [type_list_index_of_type length] in *.
  destruct (decide (U = T)) as [->|Hne].
  - split; [lia | done].
  - apply elem_of_cons in Hin as [?|Hin]; [congruence|].
    destruct IH as [Hlt Hlook]; [done | lia |].
    unfold type_list_npos.
    destruct (N.eqb_spec (type_list_index_of_type l T) size_t_max) as [E|E]; [lia|].
    split; [lia|].
    replace (N.to_nat (type_list_index_of_type l T + 1))
      with (S (N.to_nat (type_list_index_of_type l T))) by lia.
    done.
Qed.

Lemma index_of_type_member T :
  T ∈ TTypes → sizeof_TTypes ≤ size_t_max →
  type_list_index_of_type TTypes T ≠ variant_npos
  ∧ type_from_index (type_list_index_of_type TTypes T) = Some T.
Proof.
  intros Hin Hlen.
  destruct (type_list_index_of_type_member TTypes T Hin Hlen) as [Hlt Hlook].
  split; [|done]. unfold variant_npos, sizeof_TTypes in *. lia.
Qed.

(** For a type of the pack the member alias [index_of_type] is the position
    of the type. *)
Lemma index_of_type_pack T :
  T ∈ TTypes → index_of_type T = type_list_index_of_type TTypes T.
Proof. intros Hin. unfold index_of_type. by rewrite TTypes_unqualified. Qed.



Lemma type_from_index_unqualified Index T :
  type_from_index Index = Some T → remove_cvref_t T = T.
Proof. intros E. apply TTypes_unqualified. by eapply list_elem_of_lookup_2. Qed.

(** *** Arguments that are no part of the variant *)

Lemma fetch_outside value this h x d tr :
  operand_outside value this h x →
  fetch value (State (<[this := d]> h) tr) = Ok x (State (<[this := d]> h) tr).
Proof.
  destruct value as [x'|r]; cbn [operand_outside].
  - by intros ->.
  - intros (Hne & o & Ho & Hd). by run.
Qed.

Lemma leave_outside value this h x y d tr :
  operand_outside value this h x →
  leave value y (State (<[this := d]> h) tr)
  = Ok tt (State (<[this := d]> (left_as value y h)) tr).
Proof.
  destruct value as [x'|r]; cbn [operand_outside left_as].
  - by intros ->.
  - intros (Hne & o & Ho & Hd). run.
    by rewrite insert_insert_ne.
Qed.

Lemma fetch_args_outside w this h a d tr :
  args_outside w this h a →
  fetch_args w (State (<[this := d]> h) tr) = Ok a (State (<[this := d]> h) tr).
Proof.
  destruct w as [a'|r f]; cbn [args_outside].
  - by intros ->.
  - intros (Hne & o & x & Ho & Hd & <-). by run.
Qed.

(** *** Construction from values and arguments *)

Lemma variant_default_ctor_run h tr this g T :
  h !! this = Some g → type_from_index 0 = Some T →
  default_ctor_throws T = false →
  variant_default_ctor this (State h tr)
  = Ok tt (State (<[this := Variant (Some (T, default_ctor T)) (operation_of T) 0]> h)
                 (tr ++ [EvConstruct T (default_ctor T)])).
Proof.
  intros Hg E Hr. unfold variant_default_ctor. rewrite E.
  unfold default_construct_in_place.
  rewrite (type_from_index_unqualified _ _ E). by run.
Qed.

Lemma variant_in_place_index_ctor_run h tr this g Index T (a : args) :
  h !! this = Some g → type_from_index Index = Some T →
  args_ctor_throws T a = false →
  variant_in_place_index_ctor this Index a (State h tr)
  = Ok tt (State (<[this := Variant (Some (T, args_ctor T a)) (operation_of T) Index]> h)
                 (tr ++ [EvConstruct T (args_ctor T a)])).
Proof.
  intros Hg E Hr. unfold variant_in_place_index_ctor. rewrite E.
  rewrite (type_from_index_is_one_of _ _ E).
  unfold construct_in_place_args.
  rewrite (type_from_index_unqualified _ _ E). by run.
Qed.




Lemma constructed_by_index_consistent Index T x :
  type_from_index Index = Some T → sizeof_TTypes ≤ size_t_max →
  consistent (Variant (Some (T, x)) (operation_of T) Index) = true.
Proof.
  intros E Hlen. apply consistent_intro; [|done].
  apply type_from_index_lt in E. unfold variant_npos. lia.
Qed.




(** *** emplace *)




(** *** Construction from another variant *)

Lemma variant_copy_ctor_live h tr this other g o T x m :
  this ≠ other → h !! this = Some g → h !! other = Some o →
  type_id o ≠ variant_npos →
  operation o = operation_type T true m → data o = Some (T, x) →
  copy_ctor_throws T x = false →
  variant_copy_ctor this other (State h tr)
  = Ok tt (State (<[this := Variant (Some (T, copy_ctor T x)) (operation o) (type_id o)]> h)
                 (tr ++ [EvCopy T x])).
Proof.
  intros Hne Hg Ho L Hop Hd Hr. apply N.eqb_neq in L.
  unfold variant_copy_ctor. run_members.
  erewrite call_operation_Copy; [| by run | by run | by run | done | done].
  by run.
Qed.

Lemma variant_copy_ctor_valueless h tr this other g o :
  this ≠ other → h !! this = Some g → h !! other = Some o →
  type_id o = variant_npos →
  variant_copy_ctor this other (State h tr)
  = Ok tt (State (<[this := Variant (data g) (operation o) variant_npos]> h) tr).
Proof.
  intros Hne Hg Ho L. unfold variant_copy_ctor. run_members.
  rewrite N.eqb_refl. by run.
Qed.

Lemma variant_move_ctor_live h tr this other g o T x c :
  this ≠ other → h !! this = Some g → h !! other = Some o →
  type_id o ≠ variant_npos →
  operation o = operation_type T c true → data o = Some (T, x) →
  move_ctor_throws T x = false →
  variant_move_ctor this other (State h tr)
  = Ok tt (State (<[this := Variant (Some (T, (move_ctor T x).1)) (operation o) (type_id o)]>
                    (<[other := Variant (Some (T, (move_ctor T x).2)) (operation o) (type_id o)]> h))
                 (tr ++ [EvMove T x])).
Proof.
  intros Hne Hg Ho L Hop Hd Hr. apply N.eqb_neq in L.
  unfold variant_move_ctor. run_members.
  erewrite call_operation_Move; [| done | by run | by run | by run | done | done].
  run. heap_eq.
Qed.

Lemma variant_move_ctor_valueless h tr this other g o :
  this ≠ other → h !! this = Some g → h !! other = Some o →
  type_id o = variant_npos →
  variant_move_ctor this other (State h tr)
  = Ok tt (State (<[this := Variant (data g) (operation o) variant_npos]> h) tr).
Proof.
  intros Hne Hg Ho L. unfold variant_move_ctor. run_members.
  rewrite N.eqb_refl. by run.
Qed.

Lemma variant_move_ctor_self h tr this g :
  h !! this = Some g →
  variant_move_ctor this this (State h tr)
  = Ok tt (State (<[this := Variant (data g) (operation g) variant_npos]> h) tr).
Proof.
  intros Hg. unfold variant_move_ctor. run_members.
  rewrite decide_False by (intros ?; done). by run.
Qed.

(** *** Destruction *)

Lemma variant_dtor_live h tr this v U x c m :
  h !! this = Some v → type_id v ≠ variant_npos →
  operation v = operation_type U c m → data v = Some (U, x) →
  variant_dtor this (State h tr)
  = Ok tt (State (<[this := Variant None operation_void variant_npos]> h)
                 (tr ++ [EvDestroy U x])).
Proof.
  intros Hv L Ho Hd. apply N.eqb_neq in L.
  unfold variant_dtor. run_members.
  erewrite call_operation_Destroy; [| done | done | done].
  by run.
Qed.

Lemma variant_dtor_valueless h tr this v :
  h !! this = Some v → type_id v = variant_npos →
  variant_dtor this (State h tr)
  = Ok tt (State (<[this := Variant (data v) operation_void variant_npos]> h) tr).
Proof.
  intros Hv L. unfold variant_dtor. run_members. rewrite N.eqb_refl. by run.
Qed.

(** The destructor of a variant whose buffer is empty while a tag and the
    operation of a type are in place runs a destructor on the empty
    buffer. *)
Lemma variant_dtor_destroyed h tr this T c m i :
  h !! this = Some (Variant None (operation_type T c m) i) → i ≠ variant_npos →
  variant_dtor this (State h tr) = Undefined.
Proof.
  intros Hv L. apply N.eqb_neq in L.
  unfold variant_dtor. run. unfold do_operation. by destruct c, m; run.
Qed.

(** C8, as the code has it.  Move construction: from a distinct valueless
    source the destination is valueless; from itself the destination is
    valueless; from a distinct source that holds a live [x] of a
    move-constructible type [T], when the move constructor returns, the
    destination gets the source's tag and operation and the move-constructed
    value, while the source keeps its tag and holds what the move left
    behind: no destructor has run, and destroying the source afterwards runs
    the destructor of [T] on what was left. *)
Theorem move_construction_cases h tr this other g o :
  h !! this = Some g → h !! other = Some o →
  (this ≠ other → type_id o = variant_npos →
     ∃ s' d, variant_move_ctor this other (State h tr) = Ok tt s'
       ∧ heap s' !! this = Some d ∧ type_id d = variant_npos
       ∧ destroyed (trace s') = destroyed tr)
  ∧ (this = other →
     ∃ s' d, variant_move_ctor this other (State h tr) = Ok tt s'
       ∧ heap s' !! this = Some d ∧ type_id d = variant_npos
       ∧ destroyed (trace s') = destroyed tr)
  ∧ (∀ T x, this ≠ other → type_id o ≠ variant_npos → consistent o = true →
       data o = Some (T, x) → is_move_constructible T = true →
       move_ctor_throws T x = false →
       let o' := Variant (Some (T, (move_ctor T x).2)) (operation o) (type_id o) in
       ∃ s', variant_move_ctor this other (State h tr) = Ok tt s'
         ∧ heap s' !! this
           = Some (Variant (Some (T, (move_ctor T x).1)) (operation o) (type_id o))
         ∧ heap s' !! other = Some o'
         ∧ consistent o' = true
         ∧ trace s' = tr ++ [EvMove T x]
         ∧ destroyed (trace s') = destroyed tr
         ∧ ∃ s'', variant_dtor other s' = Ok tt s''
             ∧ trace s'' = trace s' ++ [EvDestroy T (move_ctor T x).2]).
Proof.
  intros Hg Ho. split; [|split].
  - intros Hne L. eexists _, _. split; [|split; [|split]].
    + by eapply variant_move_ctor_valueless.
    + cbn [heap]. by rewrite lookup_insert_eq.
    + done.
    + done.
  - intros ->. eexists _, _. split; [|split; [|split]].
    + by eapply variant_move_ctor_self.
    + cbn [heap]. by rewrite lookup_insert_eq.
    + done.
    + done.
  - intros T x Hne L C Hd Hm Hr o'.
    destruct (consistent_live o C L) as (T' & x' & Hty & Hd' & Hop).
    rewrite Hd in Hd'. injection Hd' as <- <-.
    assert (operation o = operation_type T (is_copy_constructible T) true) as Hop'.
    { rewrite Hop. unfold operation_of. by rewrite Hm. }
    eexists. split; [|split; [|split; [|split; [|split; [|split]]]]].
    + by eapply variant_move_ctor_live.
    + cbn [heap]. by rewrite lookup_insert_eq.
    + cbn [heap]. by rewrite lookup_insert_ne, lookup_insert_eq.
    + subst o'. rewrite Hop. by apply consistent_intro.
    + done.
    + cbn [trace]. rewrite destroyed_app. cbn. by rewrite app_nil_r.
    + eexists. split.
      * eapply (variant_dtor_live _ _ other o' T _ (is_copy_constructible T) true);
          [by rewrite lookup_insert_ne, lookup_insert_eq | done | done | done].
      * done.
Qed.

(** *** Assignment from another variant *)

Lemma copy_assign_valueless h tr this other v o :
  this ≠ other → h !! this = Some v → h !! other = Some o →
  type_id o = variant_npos →
  copy_assign this other (State h tr)
  = Ok tt (State (<[this := Variant (data v) (operation v) variant_npos]> h) tr).
Proof.
  intros Hne Hv Ho L. unfold copy_assign. run_members.
  rewrite N.eqb_refl. by run.
Qed.

Lemma move_assign_valueless h tr this other v o :
  this ≠ other → h !! this = Some v → h !! other = Some o →
  type_id o = variant_npos →
  move_assign this other (State h tr)
  = Ok tt (State (<[this := Variant (data v) (operation v) variant_npos]> h) tr).
Proof.
  intros Hne Hv Ho L. unfold move_assign. run_members.
  rewrite N.eqb_refl. by run.
Qed.


Lemma move_assign_self h tr this : move_assign this this (State h tr) = Ok tt (State h tr).
Proof. unfold move_assign. by rewrite decide_False by (intros ?; done). Qed.

Lemma copy_assign_live h tr this other v o U x c m T y m' :
  this ≠ other → h !! this = Some v → h !! other = Some o →
  operation v = operation_type U c m → data v = Some (U, x) →
  type_id o ≠ variant_npos →
  operation o = operation_type T true m' → data o = Some (T, y) →
  copy_ctor_throws T y = false →
  copy_assign this other (State h tr)
  = Ok tt (State (<[this := Variant (Some (T, copy_ctor T y)) (operation o) (type_id o)]> h)
                 (tr ++ [EvDestroy U x; EvCopy T y])).
Proof.
  intros Hne Hv Ho Hopv Hdv L Hopo Hdo Hr. apply N.eqb_neq in L.
  unfold copy_assign. run_members.
  erewrite call_operation_Destroy; [| done | done | done].
  run_members.
  erewrite call_operation_Copy; [| by run | by run | by run | done | done].
  run. heap_eq.
Qed.

Lemma move_assign_live h tr this other v o U x c m T y c' :
  this ≠ other → h !! this = Some v → h !! other = Some o →
  operation v = operation_type U c m → data v = Some (U, x) →
  type_id o ≠ variant_npos →
  operation o = operation_type T c' true → data o = Some (T, y) →
  move_ctor_throws T y = false →
  move_assign this other (State h tr)
  = Ok tt (State (<[this := Variant (Some (T, (move_ctor T y).1)) (operation o) (type_id o)]>
                    (<[other := Variant (Some (T, (move_ctor T y).2)) (operation o) (type_id o)]> h))
                 (tr ++ [EvDestroy U x; EvMove T y])).
Proof.
  intros Hne Hv Ho Hopv Hdv L Hopo Hdo Hr. apply N.eqb_neq in L.
  unfold move_assign. run_members.
  erewrite call_operation_Destroy; [| done | done | done].
  run_members.
  erewrite call_operation_Move; [| done | by run | by run | by run | done | done].
  run. heap_eq.
Qed.

(** Assignment from a distinct valueless source only overwrites the tag:
    the old value stays in the buffer with its operation bound, no
    destructor runs, now or when the variant is destroyed. *)
Lemma assign_from_valueless h tr this other v o T x :
  this ≠ other → h !! this = Some v → h !! other = Some o →
  consistent v = true → type_id v ≠ variant_npos → data v = Some (T, x) →
  type_id o = variant_npos →
  let v' := Variant (Some (T, x)) (operation v) variant_npos in
  let s' := State (<[this := v']> h) tr in
  copy_assign this other (State h tr) = Ok tt s'
  ∧ move_assign this other (State h tr) = Ok tt s'
  ∧ consistent v' = false
  ∧ variant_dtor this s'
    = Ok tt (State (<[this := Variant (Some (T, x)) operation_void variant_npos]> h) tr).
Proof.
  intros Hne Hv Ho C L Hd Lo v' s'. subst v' s'. rewrite <- Hd.
  split; [|split; [|split]].
  - by eapply copy_assign_valueless.
  - by eapply move_assign_valueless.
  - unfold consistent. cbn [type_id data]. by rewrite N.eqb_refl, Hd.
  - erewrite variant_dtor_valueless; [| by rewrite lookup_insert_eq | done].
    cbn [data]. by rewrite insert_insert_eq.
Qed.

(** *** Local storage and swap *)

Lemma fresh_addr_above h a : is_Some (h !! a) → (a < fresh_addr h)%nat.
Proof.
  unfold fresh_addr. revert a.
  apply (map_fold_weak_ind (λ r m, ∀ a, is_Some (m !! a) → (a < r)%nat)).
  - intros a [? E]. by rewrite lookup_empty in E.
  - intros i z m r _ IH a. rewrite lookup_insert. case_decide.
    + subst. lia.
    + intros E. specialize (IH a E). lia.
Qed.

Lemma fresh_addr_fresh h : h !! fresh_addr h = None.
Proof.
  destruct (h !! fresh_addr h) eqn:E; [|done].
  assert (fresh_addr h < fresh_addr h)%nat by (apply fresh_addr_above; eauto).
  lia.
Qed.

Lemma run_alloca h tr :
  alloca (State h tr)
  = Ok (fresh_addr h)
       (State (<[fresh_addr h := Variant None indeterminate_operation indeterminate_type_id]> h) tr).
Proof. reflexivity. Qed.

(** [swap] of two distinct variants that hold live values of
    move-constructible types, with what the move constructors produce and
    leave behind written out. *)
Lemma swap_run h tr this rhs a b Ti Tj x y :
  this ≠ rhs → h !! this = Some a → h !! rhs = Some b →
  consistent a = true → consistent b = true →
  type_id a ≠ variant_npos → type_id b ≠ variant_npos →
  data a = Some (Ti, x) → data b = Some (Tj, y) →
  is_move_constructible Ti = true → is_move_constructible Tj = true →
  let x1 := (move_ctor Ti x).1 in
  move_ctor_throws Ti x = false → move_ctor_throws Tj y = false →
  move_ctor_throws Ti x1 = false →
  swap this rhs (State h tr)
  = Ok tt (State (<[rhs := Variant (Some (Ti, (move_ctor Ti x1).1)) (operation a) (type_id a)]>
                    (<[this := Variant (Some (Tj, (move_ctor Tj y).1)) (operation b) (type_id b)]> h))
                 (tr ++ [EvMove Ti x; EvDestroy Ti (move_ctor Ti x).2;
                         EvMove Tj y; EvDestroy Tj (move_ctor Tj y).2;
                         EvMove Ti x1; EvDestroy Ti (move_ctor Ti x1).2])).
Proof.
  intros Hne Ha Hb Ca Cb La Lb Hda Hdb Hmi Hmj x1 Hrx Hry Hrx1. subst x1.
  destruct (consistent_live a Ca La) as (T' & x' & _ & Hd' & Hopa).
  rewrite Hda in Hd'. injection Hd' as <- <-.
  destruct (consistent_live b Cb Lb) as (T' & y' & _ & Hd' & Hopb).
  rewrite Hdb in Hd'. injection Hd' as <- <-.
  unfold operation_of in Hopa, Hopb. rewrite Hmi in Hopa. rewrite Hmj in Hopb.
  pose proof (fresh_addr_fresh h) as Hfresh.
  set (temp := fresh_addr h) in *.
  assert (temp ≠ this) as Ht1 by (intros ->; congruence).
  assert (temp ≠ rhs) as Ht2 by (intros ->; congruence).
  unfold swap, noexcept, mbind, M_bind. rewrite run_alloca. fold temp.
  erewrite variant_move_ctor_live;
    [| done | solve_lookup | solve_lookup | done | done | done | done ].
  erewrite move_assign_live;
    [| done | solve_lookup | solve_lookup | by cbn [operation] | by cbn [data]
     | done | done | done | done ].
  erewrite move_assign_live;
    [| done | solve_lookup | solve_lookup | by cbn [operation] | by cbn [data]
     | done | by cbn [operation] | by cbn [data] | done ].
  erewrite variant_dtor_live;
    [| solve_lookup | done | by cbn [operation] | by cbn [data] ].
  unfold dealloca. cbn [heap trace operation type_id].
  match goal with
  | |- Ok tt (State ?h1 _) = Ok tt (State ?h2 _) => replace h1 with h2
  end.
  - by rewrite <- !app_assoc.
  - heap_eq.
Qed.

(** C9, as the code has it.  [swap] of two distinct variants that hold live
    values [x] of type [Ti] and [y] of type [Tj], both move-constructible and
    with move constructors that return and hand these values over: the trace
    shows the three moves through the temporary (this into the temporary,
    rhs into this, the temporary into rhs), each followed by the destruction
    of what the move left behind; afterwards this has rhs's tag and operation
    and holds [y], rhs has this's tag and operation and holds [x], and the
    temporary is gone. *)
Theorem swap_three_way_move h tr this rhs a b Ti Tj x y :
  this ≠ rhs → h !! this = Some a → h !! rhs = Some b →
  consistent a = true → consistent b = true →
  type_id a ≠ variant_npos → type_id b ≠ variant_npos →
  data a = Some (Ti, x) → data b = Some (Tj, y) →
  is_move_constructible Ti = true → is_move_constructible Tj = true →
  move_ctor_throws Ti x = false → move_ctor_throws Tj y = false →
  (move_ctor Ti x).1 = x → (move_ctor Tj y).1 = y →
  swap this rhs (State h tr)
  = Ok tt (State (<[rhs := Variant (Some (Ti, x)) (operation a) (type_id a)]>
                    (<[this := Variant (Some (Tj, y)) (operation b) (type_id b)]> h))
                 (tr ++ [EvMove Ti x; EvDestroy Ti (move_ctor Ti x).2;
                         EvMove Tj y; EvDestroy Tj (move_ctor Tj y).2;
                         EvMove Ti x; EvDestroy Ti (move_ctor Ti x).2])).
Proof.
  intros Hne Ha Hb Ca Cb La Lb Hda Hdb Hmi Hmj Hrx Hry Hx Hy.
  rewrite (swap_run h tr this rhs a b Ti Tj x y); try done.
  - cbn zeta. by rewrite !Hx, Hy.
  - cbn zeta. by rewrite Hx.
Qed.


(** *** Narrowing access *)

(** The three overloads that check the tag. *)
Lemma get_Index_checked c Index this h tr o T :
  c ≠ rvalue → h !! this = Some o → type_from_index Index = Some T →
  get_Index c Index this (State h tr)
  = if Index =? type_id o then Ok (Ref T this) (State h tr)
    else Throw variant_incorrect_type_exception (State h tr).
Proof.
  intros Hc Ho E.
  pose proof (type_from_index_lt _ _ E) as Hlt. apply N.ltb_lt in Hlt.
  destruct c; [| done | |];
    unfold get_Index, get_Index_lvalue, get_Index_const_lvalue,
      get_Index_const_rvalue, variant_alternative_t;
    rewrite E; run; by destruct (Index =? type_id o).
Qed.

(** The overload for a non-const rvalue does not look at the tag. *)
Lemma get_Index_rvalue_unchecked Index this s T :
  type_from_index Index = Some T →
  get_Index_rvalue Index this s = Ok (Ref T this) s.
Proof.
  intros E.
  pose proof (type_from_index_lt _ _ E) as Hlt. apply N.ltb_lt in Hlt.
  unfold get_Index_rvalue, variant_alternative_t. rewrite E. by run.
Qed.

Lemma get_Index_match c Index this h tr o T :
  h !! this = Some o → type_from_index Index = Some T → type_id o = Index →
  get_Index c Index this (State h tr) = Ok (Ref T this) (State h tr).
Proof.
  intros Ho E <-. destruct c.
  2: by apply get_Index_rvalue_unchecked.
  all: erewrite get_Index_checked by done; by rewrite N.eqb_refl.
Qed.

(** C10.  [holds_alternative<T>] is [false] for a type that is not in the
    pack, whatever the tag, also when the variant is valueless and its tag
    equals the not-found index; for a type of the pack it tells whether the
    tag is the index of the type, which is a position where the pack has that
    type. *)
Theorem holds_alternative_T_spec h tr this o T :
  h !! this = Some o → sizeof_TTypes ≤ size_t_max →
  (T ∉ TTypes →
     type_list_index_of_type TTypes T = variant_npos
     ∧ holds_alternative_T T this (State h tr) = Ok false (State h tr))
  ∧ (T ∈ TTypes →
     type_from_index (type_list_index_of_type TTypes T) = Some T
     ∧ holds_alternative_T T this (State h tr)
       = Ok (type_id o =? type_list_index_of_type TTypes T) (State h tr)).
Proof.
  intros Ho Hlen. unfold holds_alternative_T. split.
  - intros Hn. rewrite (type_list_index_of_type_not_member _ _ Hn).
    unfold type_list_npos, variant_npos. by rewrite N.eqb_refl.
  - intros Hin.
    destruct (type_list_index_of_type_member _ _ Hin Hlen) as [Hlt Hlook].
    split; [done|]. unfold variant_npos, sizeof_TTypes in *.
    destruct (N.eqb_spec (type_list_index_of_type TTypes T) size_t_max) as [E|E];
      [lia|].
    by run.
Qed.

(** *** Visitation *)

Lemma attempt_visitor_other h tr this o Index :
  h !! this = Some o → Index ≠ type_id o →
  attempt_visitor this Index (State h tr) = Ok false (State h tr).
Proof.
  intros Ho Hne. apply N.eqb_neq in Hne. unfold attempt_visitor. by run.
Qed.

Lemma attempt_operator_other h tr this o Index :
  h !! this = Some o → Index ≠ type_id o →
  attempt_operator this Index (State h tr) = Ok false (State h tr).
Proof.
  intros Ho Hne. apply N.eqb_neq in Hne. unfold attempt_operator. by run.
Qed.

Lemma fold_or_none (attempt : N → M (state ty val) bool) (I : list N) s :
  (∀ i, i ∈ I → attempt i s = Ok false s) →
  fold_or attempt I s = Ok false s.
Proof.
  induction I as [|i I IH]; [done|].
  intros Hall. cbn [fold_or]. unfold mbind, M_bind.
  rewrite Hall by (apply elem_of_cons; by left).
  apply IH. intros j Hj. apply Hall. apply elem_of_cons. by right.
Qed.

Lemma elem_of_make_index_sequence i n :
  i ∈ make_index_sequence n → i < n.
Proof.
  unfold make_index_sequence. intros (k & -> & Hk)%list_elem_of_fmap.
  apply elem_of_seq in Hk. lia.
Qed.

(** [do_visit] checks each variant before it goes on to the next one, and
    reads no value before all of them are checked: one valueless variant
    among live ones ends the visit. *)
Lemma do_visit_valueless {TRet} c h tr this o (before after : list nat) :
  h !! this = Some o → type_id o = variant_npos → sizeof_TTypes ≤ size_t_max →
  Forall (λ a, ∃ o', h !! a = Some o' ∧ type_id o' < sizeof_TTypes) before →
  ∀ (f : @callable ty val TRet) p ps,
    p :: ps = before ++ this :: after →
    do_visit c f p ps (State h tr) = Throw bad_variant_access (State h tr).
Proof.
  intros Ho L Hlen. induction before as [|b before IH]; intros Hall f p ps E.
  - injection E as -> ->. destruct after; cbn [do_visit]; run;
      by rewrite N.eqb_refl.
  - injection E as -> ->. apply Forall_cons in Hall as [(ob & Hb & Hlt) Hall].
    assert ((type_id ob =? variant_npos) = false) as Lb.
    { apply N.eqb_neq. unfold variant_npos. lia. }
    apply N.ltb_lt in Hlt.
    destruct before as [|b' before]; cbn [app do_visit]; run_members;
      by apply IH.
Qed.

(** C3, as the code has it.  On a valueless variant [etl::visit] fails with
    bad_variant_access for every callable and value category, alone or among
    other variants that hold values, and never calls the callable; [accept],
    with a visitor object or with a functor, returns normally and calls
    nothing. *)
Theorem visit_valueless h tr this o :
  h !! this = Some o → type_id o = variant_npos → sizeof_TTypes ≤ size_t_max →
  (∀ TRet c (f : @callable ty val TRet) before after p ps,
     Forall (λ a, ∃ o', h !! a = Some o' ∧ type_id o' < sizeof_TTypes) before →
     p :: ps = before ++ this :: after →
     visit c f p ps (State h tr) = Throw bad_variant_access (State h tr))
  ∧ accept_visitor this (State h tr) = Ok tt (State h tr)
  ∧ accept_functor this (State h tr) = Ok tt (State h tr).
Proof.
  intros Ho L Hlen. split; [|split].
  - intros TRet c f before after p ps Hall E. unfold visit.
    by eapply do_visit_valueless.
  - unfold accept_visitor, do_visitor, mbind, M_bind.
    rewrite fold_or_none; [done|].
    intros i Hi%elem_of_make_index_sequence.
    eapply attempt_visitor_other; [done|]. unfold variant_npos in L. lia.
  - unfold accept_functor, do_operator, mbind, M_bind.
    rewrite fold_or_none; [done|].
    intros i Hi%elem_of_make_index_sequence.
    eapply attempt_operator_other; [done|]. unfold variant_npos in L. lia.
Qed.

(** *** Comparison *)

Lemma run_read h tr this o T x :
  h !! this = Some o → data o = Some (T, x) →
  read (Ref T this) (State h tr) = Ok x (State h tr).
Proof. intros Ho Hd. by run. Qed.

(** The visit of the comparison operators: on a live left operand the
    visitor is given the held value, looks up the right operand by the type
    of that value, and compares the two held values when the type is found
    at the tag of the right operand. *)
Lemma visit_compare (cmp : ty → val → val → bool) (f : @callable ty val bool)
    h tr lhs rhs a b T x y :
  (∀ r, f [r] =
          (r' ← get_T_const_lvalue (ref_type r) rhs;
           x ← read r; y ← read r'; mret (cmp (ref_type r) x y))) →
  sizeof_TTypes ≤ size_t_max →
  h !! lhs = Some a → h !! rhs = Some b →
  type_id a ≠ variant_npos →
  type_from_index (type_id a) = Some T →
  data a = Some (T, x) → data b = Some (T, y) →
  visit const_lvalue f lhs [] (State h tr)
  = if type_list_index_of_type TTypes T =? type_id b then Ok (cmp T x y) (State h tr)
    else Throw variant_incorrect_type_exception (State h tr).
Proof.
  intros Hf Hlen Ha Hb La Hty Hda Hdb.
  pose proof (type_from_index_lt _ _ Hty) as Hlt. apply N.ltb_lt in Hlt.
  apply N.eqb_neq in La.
  destruct (type_list_index_of_type_member TTypes T) as [_ Hty'];
    [by eapply list_elem_of_lookup_2 | done |].
  unfold visit. cbn [do_visit]. run_members.
  rewrite (get_Index_match const_lvalue _ lhs h tr a T) by done.
  rewrite Hf. cbn [ref_type].
  unfold get_T_const_lvalue.
  change get_Index_const_lvalue with (get_Index const_lvalue).
  unfold mbind at 1, M_bind at 1.
  rewrite (get_Index_checked const_lvalue _ rhs h tr b T) by done.
  destruct (type_list_index_of_type TTypes T =? type_id b); [|done].
  unfold mbind, M_bind.
  rewrite (run_read h tr lhs a T x), (run_read h tr rhs b T y) by done.
  done.
Qed.

Lemma compare_same_tag h tr lhs rhs a b T x y :
  sizeof_TTypes ≤ size_t_max →
  h !! lhs = Some a → h !! rhs = Some b →
  type_id a ≠ variant_npos → type_id a = type_id b →
  type_from_index (type_id a) = Some T →
  data a = Some (T, x) → data b = Some (T, y) →
  let s := State h tr in
  operator_eq lhs rhs s
  = (if type_list_index_of_type TTypes T =? type_id a then Ok (val_eq T x y) s
     else Throw variant_incorrect_type_exception s)
  ∧ operator_lt lhs rhs s
    = (if type_list_index_of_type TTypes T =? type_id a then Ok (val_lt T x y) s
       else Throw variant_incorrect_type_exception s).
Proof.
  intros Hlen Ha Hb La Heq Hty Hda Hdb s. subst s.
  assert (type_id b ≠ variant_npos) as Lb by congruence.
  pose proof (visit_compare val_eq (equality_visitor rhs) h tr lhs rhs a b T x y
                (λ _, eq_refl) Hlen Ha Hb La Hty Hda Hdb) as Veq.
  pose proof (visit_compare val_lt (less_than_visitor rhs) h tr lhs rhs a b T x y
                (λ _, eq_refl) Hlen Ha Hb La Hty Hda Hdb) as Vlt.
  rewrite <- Heq in Veq, Vlt. rewrite <- Veq, <- Vlt.
  apply N.eqb_neq in La, Lb.
  split.
  - unfold operator_eq. run_members. rewrite <- Heq. by rewrite N.eqb_refl.
  - unfold operator_lt. run_members. rewrite <- Heq. by rewrite N.eqb_refl.
Qed.

(** C7, as the code has it.  Copy construction into raw storage from a
    distinct source: a valueless source gives a valueless destination; a
    source that satisfies the invariant and holds a live [x] of a
    copy-constructible type [T] gives, when the copy constructor returns, a
    destination with the source's tag and operation that holds the copy of
    [x].  When the copy constructor of [T] makes a copy that the [==] of [T]
    finds equal to [x], the held values are equal, and [operator ==] of the
    two variants returns [true] where [T] is found in the pack at the tag.
    The source is left as it was. *)
Theorem copy_construction_round_trip h tr this other o gop gid :
  this ≠ other → h !! other = Some o →
  h !! this = Some (Variant None gop gid) →
  (type_id o = variant_npos →
     ∃ s', variant_copy_ctor this other (State h tr) = Ok tt s'
       ∧ heap s' !! this = Some (Variant None (operation o) variant_npos)
       ∧ heap s' !! other = Some o
       ∧ trace s' = tr)
  ∧ (∀ T x, type_id o ≠ variant_npos → consistent o = true →
       data o = Some (T, x) → is_copy_constructible T = true →
       copy_ctor_throws T x = false →
       val_eq T (copy_ctor T x) x = true →
       ∃ s' y, variant_copy_ctor this other (State h tr) = Ok tt s'
         ∧ heap s' !! this = Some (Variant (Some (T, y)) (operation o) (type_id o))
         ∧ y = copy_ctor T x
         ∧ val_eq T y x = true
         ∧ consistent (Variant (Some (T, y)) (operation o) (type_id o)) = true
         ∧ heap s' !! other = Some o
         ∧ trace s' = tr ++ [EvCopy T x]
         ∧ (sizeof_TTypes ≤ size_t_max → type_list_index_of_type TTypes T = type_id o →
            operator_eq this other s' = Ok true s')).
Proof.
  intros Hne Ho Hg. split.
  - intros L. eexists. split.
    + by eapply variant_copy_ctor_valueless.
    + cbn [heap trace data]. by rewrite lookup_insert_eq, lookup_insert_ne.
  - intros T x L C Hd Hc Hr Heq.
    destruct (consistent_live o C L) as (T' & x' & Hty & Hd' & Hop).
    rewrite Hd in Hd'. injection Hd' as <- <-.
    eexists _, (copy_ctor T x).
    split; [|split; [|split; [|split; [|split; [|split; [|split]]]]]].
    + eapply variant_copy_ctor_live; try done.
      rewrite Hop. unfold operation_of. by rewrite Hc.
    + cbn [heap]. by rewrite lookup_insert_eq.
    + done.
    + done.
    + rewrite Hop. apply consistent_intro; done.
    + cbn [heap]. by rewrite lookup_insert_ne.
    + done.
    + intros Hlen Hidx.
      edestruct (compare_same_tag
                   (<[this := Variant (Some (T, copy_ctor T x)) (operation o) (type_id o)]> h)
                   (tr ++ [EvCopy T x]) this other) as [Eeq _];
        [ done | by rewrite lookup_insert_eq | by rewrite lookup_insert_ne
        | by cbn [type_id] | by cbn [type_id] | by cbn [type_id]
        | by cbn [data] | done | ].
      rewrite Eeq. cbn [type_id]. by rewrite Hidx, N.eqb_refl, Heq.
Qed.

(** X25.  Two valueless variants are equal and neither is less; a
    valueless variant is less than, and not equal to, one that holds a value; variants with values and different tags are unequal and
    ordered by tag; variants with the same tag, which hold [x] and [y] of the
    type [T] at that tag, are compared by the [==] and [<] of [T] provided the
    index of [T] in the pack is that tag, which is to say that [T] does not
    occur earlier in the pack, and otherwise the comparison fails with
    variant_incorrect_type_exception. *)
Theorem comparison_order h tr lhs rhs a b :
  h !! lhs = Some a → h !! rhs = Some b → sizeof_TTypes ≤ size_t_max →
  let s := State h tr in
  (type_id a = variant_npos → type_id b = variant_npos →
     operator_eq lhs rhs s = Ok true s
     ∧ operator_lt lhs rhs s = Ok false s
     ∧ operator_lt rhs lhs s = Ok false s)
  ∧ (type_id a = variant_npos → type_id b ≠ variant_npos →
     operator_eq lhs rhs s = Ok false s
     ∧ operator_eq rhs lhs s = Ok false s
     ∧ operator_lt lhs rhs s = Ok true s
     ∧ operator_lt rhs lhs s = Ok false s)
  ∧ (type_id a ≠ variant_npos → type_id b ≠ variant_npos →
     type_id a ≠ type_id b →
     operator_eq lhs rhs s = Ok false s
     ∧ operator_lt lhs rhs s = Ok (type_id a <? type_id b) s)
  ∧ (∀ T x y,
     type_id a ≠ variant_npos → type_id a = type_id b →
     type_from_index (type_id a) = Some T →
     data a = Some (T, x) → data b = Some (T, y) →
     (type_list_index_of_type TTypes T = type_id a →
        operator_eq lhs rhs s = Ok (val_eq T x y) s
        ∧ operator_lt lhs rhs s = Ok (val_lt T x y) s)
     ∧ (type_list_index_of_type TTypes T ≠ type_id a →
        operator_eq lhs rhs s = Throw variant_incorrect_type_exception s
        ∧ operator_lt lhs rhs s = Throw variant_incorrect_type_exception s)).
Proof.
  intros Ha Hb Hlen s. subst s. split; [|split; [|split]].
  - intros La Lb. unfold operator_eq, operator_lt.
    repeat split; run; by rewrite N.eqb_refl.
  - intros La Lb. apply N.eqb_neq in Lb. unfold operator_eq, operator_lt.
    repeat split; run; rewrite N.eqb_refl; by run.
  - intros La Lb Hne. apply N.eqb_neq in La, Lb, Hne.
    unfold operator_eq, operator_lt. split; by run.
  - intros T x y La Heq Hty Hda Hdb.
    destruct (compare_same_tag h tr lhs rhs a b T x y Hlen Ha Hb La Heq Hty Hda Hdb)
      as [Eeq Elt].
    rewrite Eeq, Elt. split.
    + intros ->. by rewrite N.eqb_refl.
    + intros Hne%N.eqb_neq. by rewrite Hne.
Qed.

(** *** The invariant across the operations *)

Lemma consistent_at_insert h tr a v :
  consistent v = true → consistent_at (State (<[a := v]> h) tr) a.
Proof. intros C. exists v. cbn [heap]. by rewrite lookup_insert_eq. Qed.



Lemma consistent_residual v T x y :
  consistent v = true → data v = Some (T, x) →
  consistent (Variant (Some (T, y)) (operation v) (type_id v)) = true.
Proof.
  intros C Hd. pose proof (consistent_has_data v T x C Hd) as L.
  destruct (consistent_live v C L) as (T' & x' & Hty & Hd' & Hop).
  rewrite Hd in Hd'. injection Hd' as <- <-. rewrite Hop.
  by apply consistent_intro.
Qed.

Lemma consistent_operation v T x :
  consistent v = true → data v = Some (T, x) →
  operation v = operation_of T.
Proof.
  intros C Hd. pose proof (consistent_has_data v T x C Hd) as L.
  destruct (consistent_live v C L) as (T' & x' & Hty & Hd' & Hop).
  rewrite Hd in Hd'. by injection Hd' as <- <-.
Qed.




(** Assignment from a distinct variant that holds a value to a variant that
    satisfies the invariant, when the constructor returns and when it
    throws. *)
Lemma copy_assign_run h tr this other v o T y m' :
  this ≠ other → h !! this = Some v → h !! other = Some o →
  consistent v = true → type_id o ≠ variant_npos →
  operation o = operation_type T true m' → data o = Some (T, y) →
  copy_ctor_throws T y = false →
  copy_assign this other (State h tr)
  = Ok tt (State (<[this := Variant (Some (T, copy_ctor T y)) (operation o) (type_id o)]> h)
                 (tr ++ destruction v ++ [EvCopy T y])).
Proof.
  intros Hne Hv Ho Cv L Hopo Hdo Hr. apply N.eqb_neq in L.
  unfold copy_assign. run_members.
  erewrite call_operation_Destroy_consistent by done.
  run_members.
  erewrite call_operation_Copy; [| by run | by run | by run | done | done].
  run. heap_eq.
Qed.

Lemma copy_assign_throws h tr this other v o T y m' :
  this ≠ other → h !! this = Some v → h !! other = Some o →
  consistent v = true → type_id o ≠ variant_npos →
  operation o = operation_type T true m' → data o = Some (T, y) →
  copy_ctor_throws T y = true →
  copy_assign this other (State h tr)
  = Throw alternative_exception
      (State (<[this := Variant None (operation o) (type_id v)]> h)
             (tr ++ destruction v)).
Proof.
  intros Hne Hv Ho Cv L Hopo Hdo Hr. apply N.eqb_neq in L.
  unfold copy_assign. run_members.
  erewrite call_operation_Destroy_consistent by done.
  run_members.
  erewrite call_operation_Copy_throws; [| by run | by run | by run | done | done].
  done.
Qed.

Lemma move_assign_run h tr this other v o T y c' :
  this ≠ other → h !! this = Some v → h !! other = Some o →
  consistent v = true → type_id o ≠ variant_npos →
  operation o = operation_type T c' true → data o = Some (T, y) →
  move_ctor_throws T y = false →
  move_assign this other (State h tr)
  = Ok tt (State (<[this := Variant (Some (T, (move_ctor T y).1)) (operation o) (type_id o)]>
                    (<[other := Variant (Some (T, (move_ctor T y).2)) (operation o) (type_id o)]> h))
                 (tr ++ destruction v ++ [EvMove T y])).
Proof.
  intros Hne Hv Ho Cv L Hopo Hdo Hr. apply N.eqb_neq in L.
  unfold move_assign. run_members.
  erewrite call_operation_Destroy_consistent by done.
  run_members.
  erewrite call_operation_Move; [| done | by run | by run | by run | done | done].
  run. heap_eq.
Qed.

Lemma move_assign_throws h tr this other v o T y c' :
  this ≠ other → h !! this = Some v → h !! other = Some o →
  consistent v = true → type_id o ≠ variant_npos →
  operation o = operation_type T c' true → data o = Some (T, y) →
  move_ctor_throws T y = true →
  move_assign this other (State h tr)
  = Throw alternative_exception
      (State (<[this := Variant None (operation o) (type_id v)]>
                (<[other := Variant (Some (T, (move_ctor T y).2)) (operation o) (type_id o)]> h))
             (tr ++ destruction v)).
Proof.
  intros Hne Hv Ho Cv L Hopo Hdo Hr. apply N.eqb_neq in L.
  unfold move_assign. run_members.
  erewrite call_operation_Destroy_consistent by done.
  run_members.
  erewrite call_operation_Move_throws; [| done | by run | by run | by run | done | done].
  f_equal. f_equal. heap_eq.
Qed.


(** [swap] of a variant that holds a value with itself. *)
Lemma swap_self_run h tr this v T x :
  h !! this = Some v → consistent v = true → data v = Some (T, x) →
  is_move_constructible T = true →
  let x1 := (move_ctor T x).1 in
  move_ctor_throws T x = false → move_ctor_throws T x1 = false →
  swap this this (State h tr)
  = Ok tt (State (<[this := Variant (Some (T, (move_ctor T x1).1)) (operation v) (type_id v)]> h)
                 (tr ++ [EvMove T x; EvDestroy T (move_ctor T x).2;
                         EvMove T x1; EvDestroy T (move_ctor T x1).2])).
Proof.
  intros Hv C Hd Hm x1 Hr Hr1. subst x1.
  pose proof (consistent_has_data v T x C Hd) as L.
  pose proof (consistent_operation v T x C Hd) as Hop.
  unfold operation_of in Hop. rewrite Hm in Hop.
  pose proof (fresh_addr_fresh h) as Hfresh.
  set (temp := fresh_addr h) in *.
  assert (temp ≠ this) as Ht1 by (intros ->; congruence).
  unfold swap, noexcept, mbind, M_bind. rewrite run_alloca. fold temp.
  erewrite variant_move_ctor_live;
    [| done | solve_lookup | solve_lookup | done | done | done | done ].
  rewrite move_assign_self.
  erewrite move_assign_live;
    [| done | solve_lookup | solve_lookup | by cbn [operation] | by cbn [data]
     | done | by cbn [operation] | by cbn [data] | done ].
  erewrite variant_dtor_live;
    [| solve_lookup | done | by cbn [operation] | by cbn [data] ].
  unfold dealloca. cbn [heap trace operation type_id].
  match goal with
  | |- Ok tt (State ?h1 _) = Ok tt (State ?h2 _) => replace h1 with h2
  end.
  - by rewrite <- !app_assoc.
  - heap_eq.
Qed.



End Properties.

(** ** Further properties of the header *)

Section MoreProperties.

Context `{Alternatives ty val args}.

Implicit Types (s : state ty val) (h : gmap nat (variant ty val))
  (tr : list (event ty val)) (v o g : variant ty val) (T U : ty) (x y : val).

(** *** Reading a variant *)

Lemma run_index h tr this v :
  h !! this = Some v → index this (State h tr) = Ok (type_id v) (State h tr).
Proof. intros E. by run. Qed.


Lemma get_T_unfold c T this : get_T c T this = get_Index c (type_list_index_of_type TTypes T) this.
Proof. by destruct c. Qed.

Lemma index_lt_not_npos i :
  i < sizeof_TTypes → sizeof_TTypes ≤ size_t_max → (i =? variant_npos) = false.
Proof. intros. apply N.eqb_neq. unfold variant_npos. lia. Qed.

Lemma holds_alternative_T_member h tr this v T :
  h !! this = Some v → sizeof_TTypes ≤ size_t_max → T ∈ TTypes →
  type_from_index (type_list_index_of_type TTypes T) = Some T
  ∧ holds_alternative_T T this (State h tr)
    = Ok (type_id v =? type_list_index_of_type TTypes T) (State h tr).
Proof.
  intros Hv Hlen Hin. destruct (index_of_type_member T Hin Hlen) as [Hnp Hty].
  split; [done|]. unfold holds_alternative_T.
  apply N.eqb_neq in Hnp. rewrite Hnp. by run.
Qed.


(** [is_type<T>] looks for [T] without its qualifiers. *)
Lemma is_type_run h tr this v T :
  h !! this = Some v →
  is_type this T (State h tr)
  = Ok (is_one_of (remove_cvref_t T) && (type_id v =? index_of_type T)) (State h tr).
Proof.
  intros Hv. unfold is_type, is_supported_type.
  destruct (is_one_of (remove_cvref_t T)); by run.
Qed.

Lemma holds_alternative_T_foreign T s this :
  T ∉ TTypes → holds_alternative_T T this s = Ok false s.
Proof.
  intros Hn. pose proof (type_list_index_of_type_not_member _ _ Hn) as Hidx.
  unfold holds_alternative_T, variant_npos. unfold type_list_npos in Hidx.
  by rewrite Hidx, N.eqb_refl.
Qed.

(** *** Construction *)

(** X1.  Construction in place by a valid index, in raw storage: the tag is
    the index, the variant is not valueless, every overload of [get] for
    that index returns a reference through which the constructed value is
    read, the invariant holds and no destructor has run.  The constructor of
    the alternative is one that returns. *)
Theorem in_place_index_construction h tr this g Index T (a : args) :
  h !! this = Some g → type_from_index Index = Some T →
  sizeof_TTypes ≤ size_t_max → args_ctor_throws T a = false →
  let s' := State (<[this := Variant (Some (T, args_ctor T a)) (operation_of T) Index]> h)
                  (tr ++ [EvConstruct T (args_ctor T a)]) in
  variant_in_place_index_ctor this Index a (State h tr) = Ok tt s'
  ∧ index this s' = Ok Index s'
  ∧ valueless_by_exception this s' = Ok false s'
  ∧ holds_alternative_Index Index this s' = Ok true s'
  ∧ (∀ c, get_Index c Index this s' = Ok (Ref T this) s')
  ∧ read (Ref T this) s' = Ok (args_ctor T a) s'
  ∧ consistent_at s' this
  ∧ destroyed (trace s') = destroyed tr.
Proof.
  intros Hg E Hlen Hr s'. subst s'.
  pose proof (type_from_index_lt _ _ E) as Hlt.
  pose proof (index_lt_not_npos _ Hlt Hlen) as Hnp.
  split; [by eapply variant_in_place_index_ctor_run|].
  split; [by run|]. split; [by run|].
  split; [unfold holds_alternative_Index; run; by rewrite N.eqb_refl|].
  split; [intros c; by eapply get_Index_match; [apply lookup_insert_eq|..]|].
  split; [by run|].
  split; [by apply consistent_at_insert, constructed_by_index_consistent|].
  cbn [trace]. rewrite destroyed_app. apply app_nil_r.
Qed.


(** X3.  The default constructor builds the first alternative with its
    default constructor, when that one returns, and sets the tag 0; for an
    empty pack it does not compile. *)
Theorem default_construction h tr this g :
  h !! this = Some g →
  (TTypes = [] → variant_default_ctor this (State h tr) = IllFormed)
  ∧ (∀ T, type_from_index 0 = Some T → sizeof_TTypes ≤ size_t_max →
     default_ctor_throws T = false →
     let s' := State (<[this := Variant (Some (T, default_ctor T)) (operation_of T) 0]> h)
                     (tr ++ [EvConstruct T (default_ctor T)]) in
     variant_default_ctor this (State h tr) = Ok tt s'
     ∧ index this s' = Ok 0 s'
     ∧ (∀ c, get_Index c 0 this s' = Ok (Ref T this) s')
     ∧ read (Ref T this) s' = Ok (default_ctor T) s'
     ∧ consistent_at s' this).
Proof.
  intros Hg. split.
  - intros E. unfold variant_default_ctor, type_from_index. by rewrite E.
  - intros T E Hlen Hr s'. subst s'.
    split; [by eapply variant_default_ctor_run|].
    split; [by run|].
    split; [intros c; by eapply get_Index_match; [apply lookup_insert_eq|..]|].
    split; [by run|].
    by apply consistent_at_insert, constructed_by_index_consistent.
Qed.

(** X4.  An index past the end of the pack is rejected when the program is
    compiled by construction in place, [emplace], [get] and [get_if].  So is
    a type that is not in the pack by [emplace], [get] and [get_if], which
    look for the type as it is given, while [holds_alternative<T>] accepts
    it and returns [false].  The constructors from a value and in place by
    type and the assignment of a value look for the type without its
    qualifiers, and reject the type when that one is not in the pack;
    [is_supported_type<T>] and [is_type<T>] return [false] then. *)
Theorem foreign_alternative_rejected s this (a : args) :
  sizeof_TTypes ≤ size_t_max →
  (∀ Index, sizeof_TTypes ≤ Index →
     variant_in_place_index_ctor this Index a s = IllFormed
     ∧ (∀ w, emplace_Index this Index w s = IllFormed)
     ∧ (∀ c, get_Index c Index this s = IllFormed)
     ∧ (∀ pv, get_if_Index Index pv s = IllFormed
              ∧ get_if_Index_const Index pv s = IllFormed))
  ∧ (∀ T, T ∉ TTypes →
     (∀ w, emplace_T this T w s = IllFormed)
     ∧ (∀ c, get_T c T this s = IllFormed)
     ∧ (∀ pv, get_if_T T pv s = IllFormed ∧ get_if_T_const T pv s = IllFormed)
     ∧ holds_alternative_T T this s = Ok false s)
  ∧ (∀ T, remove_cvref_t T ∉ TTypes →
     (∀ rv x value, variant_value_ctor this T rv x s = IllFormed
                    ∧ assign_value this T rv value s = IllFormed)
     ∧ variant_in_place_type_ctor this T a s = IllFormed
     ∧ is_supported_type T = false
     ∧ is_type this T s = Ok false s).
Proof.
  intros Hlen. split; [|split].
  - intros Index Hge.
    assert ((Index <? sizeof_TTypes) = false) as Hlt by (apply N.ltb_ge; done).
    assert (type_from_index Index = None) as Hty.
    { unfold type_from_index. apply lookup_ge_None. unfold sizeof_TTypes in Hge. lia. }
    split; [unfold variant_in_place_index_ctor; by rewrite Hty|].
    split; [intros w; unfold emplace_Index; by run|].
    split; [intros []; unfold get_Index, get_Index_lvalue, get_Index_rvalue,
              get_Index_const_lvalue, get_Index_const_rvalue; by run|].
    intros pv. unfold get_if_Index, get_if_Index_const. split; by run.
  - intros T Hn.
    assert (is_one_of T = false) as Hone by (by apply bool_decide_eq_false_2).
    pose proof (type_list_index_of_type_not_member _ _ Hn) as Hidx.
    unfold type_list_npos in Hidx.
    assert ((type_list_index_of_type TTypes T <? sizeof_TTypes) = false) as Hlt.
    { apply N.ltb_ge. rewrite Hidx. done. }
    split; [intros w; unfold emplace_T; rewrite Hone; by run|].
    split; [intros c; rewrite get_T_unfold;
            destruct c; unfold get_Index, get_Index_lvalue, get_Index_rvalue,
              get_Index_const_lvalue, get_Index_const_rvalue; by run|].
    split; [intros pv; unfold get_if_T, get_if_T_const; split; by run|].
    by apply holds_alternative_T_foreign.
  - intros T Hn.
    assert (is_one_of (remove_cvref_t T) = false) as Hone
      by (by apply bool_decide_eq_false_2).
    split; [intros rv x value; unfold variant_value_ctor, assign_value; cbn zeta;
            rewrite Hone; split; by run|].
    split; [unfold variant_in_place_type_ctor; rewrite Hone; by run|].
    split; [done|].
    unfold is_type, is_supported_type. by rewrite Hone.
Qed.

(** *** Narrowing access *)

(** X5.  The three checked overloads of [get] (for [variant&],
    [const variant&] and [const variant&&]), by index and by type, fail with
    variant_incorrect_type_exception whenever the requested alternative is
    not the one at the tag; on a valueless variant they fail for every
    alternative. *)
Theorem get_mismatch_throws h tr this v c :
  c ≠ rvalue → h !! this = Some v → sizeof_TTypes ≤ size_t_max →
  let s := State h tr in
  (∀ Index T, type_from_index Index = Some T → Index ≠ type_id v →
     get_Index c Index this s = Throw variant_incorrect_type_exception s)
  ∧ (∀ T, T ∈ TTypes → type_list_index_of_type TTypes T ≠ type_id v →
     get_T c T this s = Throw variant_incorrect_type_exception s)
  ∧ (type_id v = variant_npos →
     (∀ Index T, type_from_index Index = Some T →
        get_Index c Index this s = Throw variant_incorrect_type_exception s)
     ∧ (∀ T, T ∈ TTypes →
        get_T c T this s = Throw variant_incorrect_type_exception s)).
Proof.
  intros Hc Hv Hlen s. subst s.
  assert (∀ Index T, type_from_index Index = Some T → Index ≠ type_id v →
            get_Index c Index this (State h tr)
            = Throw variant_incorrect_type_exception (State h tr)) as Hidx.
  { intros Index T E Hne. erewrite get_Index_checked by done.
    apply N.eqb_neq in Hne. by rewrite Hne. }
  assert (∀ T, T ∈ TTypes → type_list_index_of_type TTypes T ≠ type_id v →
            get_T c T this (State h tr)
            = Throw variant_incorrect_type_exception (State h tr)) as HT.
  { intros T Hin Hne. rewrite get_T_unfold.
    destruct (index_of_type_member T Hin Hlen) as [_ Hty]. by eapply Hidx. }
  split; [done|]. split; [done|]. intros L. split.
  - intros Index T E. eapply Hidx; [done|].
    apply type_from_index_lt in E. rewrite L. unfold variant_npos. lia.
  - intros T Hin. apply HT; [done|].
    destruct (index_of_type_member T Hin Hlen) as [Hnp _]. by rewrite L.
Qed.

(** X6.  On a variant that holds a value [x] of type [T], every overload
    of [get] for the tag returns a reference to the variant's buffer narrowed
    to [T], through which [x] is read, and changes nothing; so does every
    [get<T>] when the index of [T] is the tag. *)
Theorem get_match_reads_value h tr this v T x :
  h !! this = Some v → consistent v = true → type_id v ≠ variant_npos →
  data v = Some (T, x) →
  let s := State h tr in
  (∀ c, get_Index c (type_id v) this s = Ok (Ref T this) s)
  ∧ (type_list_index_of_type TTypes T = type_id v → ∀ c, get_T c T this s = Ok (Ref T this) s)
  ∧ read (Ref T this) s = Ok x s.
Proof.
  intros Hv C L Hd s. subst s.
  destruct (consistent_live v C L) as (T' & x' & Hty & Hd' & _).
  rewrite Hd in Hd'. injection Hd' as <- <-.
  split; [intros c; by eapply get_Index_match|].
  split; [|by eapply run_read].
  intros E c. rewrite get_T_unfold, E. by eapply get_Index_match.
Qed.

(** X7.  [get_if] never fails: for a null pointer, and for a variant whose
    tag is not the requested index (a valueless one included), it returns
    null; for a variant whose tag is the requested index it returns the
    reference that [get] returns.  By type it does the same with the index
    of the type. *)
Theorem get_if_returns_null_or_reference h tr this v :
  h !! this = Some v → sizeof_TTypes ≤ size_t_max →
  let s := State h tr in
  (∀ Index T, type_from_index Index = Some T →
     get_if_Index Index None s = Ok None s
     ∧ get_if_Index_const Index None s = Ok None s
     ∧ get_if_Index Index (Some this) s
       = Ok (if type_id v =? Index then Some (Ref T this) else None) s
     ∧ get_if_Index_const Index (Some this) s
       = Ok (if type_id v =? Index then Some (Ref T this) else None) s)
  ∧ (∀ T, T ∈ TTypes →
     get_if_T T None s = Ok None s
     ∧ get_if_T_const T None s = Ok None s
     ∧ get_if_T T (Some this) s
       = Ok (if type_id v =? type_list_index_of_type TTypes T then Some (Ref T this) else None) s
     ∧ get_if_T_const T (Some this) s
       = Ok (if type_id v =? type_list_index_of_type TTypes T then Some (Ref T this) else None) s).
Proof.
  intros Hv Hlen s. subst s.
  assert (∀ Index T, type_from_index Index = Some T →
     get_if_Index Index None (State h tr) = Ok None (State h tr)
     ∧ get_if_Index_const Index None (State h tr) = Ok None (State h tr)
     ∧ get_if_Index Index (Some this) (State h tr)
       = Ok (if type_id v =? Index then Some (Ref T this) else None) (State h tr)
     ∧ get_if_Index_const Index (Some this) (State h tr)
       = Ok (if type_id v =? Index then Some (Ref T this) else None) (State h tr))
    as Hidx.
  { intros Index T E.
    pose proof (type_from_index_lt _ _ E) as Hlt. apply N.ltb_lt in Hlt.
    unfold get_if_Index, get_if_Index_const, variant_alternative_t, noexcept.
    rewrite E. repeat split; try by run.
    - run_members. destruct (N.eqb_spec (type_id v) Index) as [<-|Hne]; [|done].
      replace get_Index_lvalue with (get_Index lvalue) by done.
      by erewrite get_Index_match.
    - run_members. destruct (N.eqb_spec (type_id v) Index) as [<-|Hne]; [|done].
      replace get_Index_const_lvalue with (get_Index const_lvalue) by done.
      by erewrite get_Index_match. }
  split; [done|].
  intros T Hin. destruct (index_of_type_member T Hin Hlen) as [_ Hty].
  apply (Hidx _ _ Hty).
Qed.


(** *** Visitation of variants that hold values *)

Lemma fold_or_hit (attempt : N → M (state ty val) bool) (I1 I2 : list N) i s s' :
  (∀ j, j ∈ I1 → attempt j s = Ok false s) → attempt i s = Ok true s' →
  fold_or attempt (I1 ++ i :: I2) s = Ok true s'.
Proof.
  intros Hmiss Hhit. induction I1 as [|j I1 IH]; cbn [app fold_or].
  - unfold mbind, M_bind. by rewrite Hhit.
  - unfold mbind, M_bind. rewrite Hmiss by (apply elem_of_cons; by left).
    apply IH. intros k Hk. apply Hmiss. apply elem_of_cons. by right.
Qed.

Lemma make_index_sequence_split i n :
  i < n →
  ∃ I2, make_index_sequence n = make_index_sequence i ++ i :: I2.
Proof.
  intros Hlt. unfold make_index_sequence.
  replace (N.to_nat n) with (N.to_nat i + S (N.to_nat n - S (N.to_nat i)))%nat by lia.
  rewrite seq_app, fmap_app. change (0 + N.to_nat i)%nat with (N.to_nat i).
  cbn [seq]. rewrite fmap_cons, N2Nat.id. eauto.
Qed.

(** X9.  [accept] on a variant that holds a value [x] of type [T] calls the
    visitor's [visit], or the functor, once, on [x] as a [T], and changes
    nothing else. *)
Theorem accept_calls_held_once h tr this v T x :
  h !! this = Some v → consistent v = true → type_id v ≠ variant_npos →
  data v = Some (T, x) →
  accept_visitor this (State h tr) = Ok tt (State h (tr ++ [EvVisit T x]))
  ∧ accept_functor this (State h tr) = Ok tt (State h (tr ++ [EvCall T x])).
Proof.
  intros Hv C L Hd.
  destruct (consistent_live v C L) as (T' & x' & Hty & Hd' & _).
  rewrite Hd in Hd'. injection Hd' as <- <-.
  pose proof (type_from_index_lt _ _ Hty) as Hlt.
  destruct (make_index_sequence_split _ _ Hlt) as [I2 Hseq].
  assert (get_Index_lvalue (type_id v) this (State h tr)
          = Ok (Ref T this) (State h tr)) as Hget.
  { by apply (get_Index_match lvalue _ this h tr v T). }
  split.
  - unfold accept_visitor, do_visitor, mbind at 1, M_bind at 1. rewrite Hseq.
    erewrite fold_or_hit; [done| |].
    + intros j Hj%elem_of_make_index_sequence.
      eapply attempt_visitor_other; [done|lia].
    + unfold attempt_visitor. unfold mbind at 1, M_bind at 1.
      rewrite (run_index h tr this v Hv), N.eqb_refl.
      unfold mbind at 1, M_bind at 1. rewrite Hget.
      unfold call_visit. by run.
  - unfold accept_functor, do_operator, mbind at 1, M_bind at 1. rewrite Hseq.
    erewrite fold_or_hit; [done| |].
    + intros j Hj%elem_of_make_index_sequence.
      eapply attempt_operator_other; [done|lia].
    + unfold attempt_operator. unfold mbind at 1, M_bind at 1.
      rewrite (run_index h tr this v Hv), N.eqb_refl.
      unfold mbind at 1, M_bind at 1. rewrite Hget.
      unfold call_functor. by run.
Qed.

(** X10.  [etl::visit] over variants that all hold values runs the callable
    on the references to the held values, one per variant and in the order
    of the variants, each narrowed to the type of the value held; the result
    and the effects are those of that one call. *)
Theorem visit_calls_with_held_values {TRet} c (f : @callable ty val TRet)
    h tr (p : nat) (ps : list nat) r rs :
  refers_to_held h p r → Forall2 (refers_to_held h) ps rs →
  visit c f p ps (State h tr) = f (r :: rs) (State h tr).
Proof.
  unfold visit. intros Hr Hrs. revert f p r Hr.
  induction Hrs as [|p' r' ps rs Hr' Hrs IH]; intros f p r Hr.
  - destruct Hr as (Ha & o & x & Ho & C & L & Hd). destruct r as [T a].
    cbn [ref_addr ref_type] in *. subst a.
    destruct (consistent_live o C L) as (T' & x' & Hty & Hd' & _).
    rewrite Hd in Hd'. injection Hd' as <- <-.
    pose proof (type_from_index_lt _ _ Hty) as Hlt. apply N.ltb_lt in Hlt.
    apply N.eqb_neq in L.
    cbn [do_visit]. run_members.
    by rewrite (get_Index_match c _ p h tr o T).
  - destruct Hr as (Ha & o & x & Ho & C & L & Hd). destruct r as [T a].
    cbn [ref_addr ref_type] in *. subst a.
    destruct (consistent_live o C L) as (T' & x' & Hty & Hd' & _).
    rewrite Hd in Hd'. injection Hd' as <- <-.
    pose proof (type_from_index_lt _ _ Hty) as Hlt. apply N.ltb_lt in Hlt.
    apply N.eqb_neq in L.
    cbn [do_visit]. run_members.
    rewrite (IH _ _ r') by done. unfold constexpr_visit_closure.
    unfold mbind, M_bind.
    by rewrite (get_Index_match c _ p h tr o T).
Qed.

(** *** Assignment *)


(** X12.  Copy assignment between two distinct variants that hold values,
    the source one of a copy-constructible type [T]: the old value of the
    destination is destroyed once and the destination takes the source's
    operation.  Then, when the copy constructor returns, the destination
    takes the source's tag and holds the copy of the source's value; the
    source is unchanged, and [operator ==] finds the two equal when the copy
    is equal to its original and [T] is found in the pack at the tag.  When
    the copy constructor throws, the exception leaves the assignment with
    the old tag and the source's operation over the destroyed value, and the
    destructor of the destination then runs a destructor on an empty
    buffer. *)
Theorem copy_assignment_between_live h tr this other v o U y T x :
  this ≠ other → h !! this = Some v → h !! other = Some o →
  consistent v = true → consistent o = true →
  data v = Some (U, y) → data o = Some (T, x) →
  is_copy_constructible T = true →
  (copy_ctor_throws T x = false →
   let s' := State (<[this := Variant (Some (T, copy_ctor T x)) (operation o) (type_id o)]> h)
                   (tr ++ [EvDestroy U y; EvCopy T x]) in
   copy_assign this other (State h tr) = Ok tt s'
   ∧ heap s' !! other = Some o
   ∧ consistent_at s' this
   ∧ is_same_type this other s' = Ok true s'
   ∧ (sizeof_TTypes ≤ size_t_max → type_list_index_of_type TTypes T = type_id o →
      val_eq T (copy_ctor T x) x = true →
      operator_eq this other s' = Ok true s'))
  ∧ (copy_ctor_throws T x = true →
     let s' := State (<[this := Variant None (operation o) (type_id v)]> h)
                     (tr ++ [EvDestroy U y]) in
     copy_assign this other (State h tr) = Throw alternative_exception s'
     ∧ heap s' !! other = Some o
     ∧ variant_dtor this s' = Undefined).
Proof.
  intros Hne Hv Ho Cv Co Hdv Hdo Hc.
  pose proof (consistent_has_data v U y Cv Hdv) as Lv.
  pose proof (consistent_has_data o T x Co Hdo) as Lo.
  pose proof (consistent_operation o T x Co Hdo) as Hopo.
  destruct (consistent_live o Co Lo) as (T' & x' & Hty & Hd' & _).
  rewrite Hdo in Hd'. injection Hd' as <- <-.
  assert (operation o = operation_type T true (is_move_constructible T)) as Hopo'.
  { rewrite Hopo. unfold operation_of. by rewrite Hc. }
  assert (destruction v = [EvDestroy U y]) as HD by (unfold destruction; by rewrite Hdv).
  split.
  - intros Hr s'. subst s'.
    split; [erewrite copy_assign_run by done; by rewrite HD|].
    split; [cbn [heap]; by rewrite lookup_insert_ne|].
    split; [apply consistent_at_insert; by eapply consistent_residual|].
    split; [unfold is_same_type; run; by rewrite N.eqb_refl|].
    intros Hlen Hidx Heq.
    edestruct (compare_same_tag
                 (<[this := Variant (Some (T, copy_ctor T x)) (operation o) (type_id o)]> h)
                 (tr ++ [EvDestroy U y; EvCopy T x]) this other) as [Eeq _];
      [ done | by rewrite lookup_insert_eq | by rewrite lookup_insert_ne
      | by cbn [type_id] | by cbn [type_id] | by cbn [type_id]
      | by cbn [data] | done | ].
    rewrite Eeq. cbn [type_id]. by rewrite Hidx, N.eqb_refl, Heq.
  - intros Hr s'. subst s'.
    split; [erewrite copy_assign_throws by done; by rewrite HD|].
    split; [cbn [heap]; by rewrite lookup_insert_ne|].
    rewrite Hopo'. eapply variant_dtor_destroyed; [apply lookup_insert_eq|done].
Qed.

(** X13.  Move assignment between two distinct variants that hold values,
    the source one of a move-constructible type [T]: the old value of the
    destination is destroyed once and the destination takes the source's
    operation.  Then, when the move constructor returns, the destination
    takes the source's tag and holds the move-constructed value; the source
    keeps its tag and holds what the move left behind, which its destructor
    destroys later.  When the move constructor throws, the exception leaves
    the assignment with the old tag and the source's operation over the
    destroyed value, and the destructor of the destination then runs a
    destructor on an empty buffer. *)
Theorem move_assignment_between_live h tr this other v o U y T x :
  this ≠ other → h !! this = Some v → h !! other = Some o →
  consistent v = true → consistent o = true →
  data v = Some (U, y) → data o = Some (T, x) →
  is_move_constructible T = true →
  let o' := Variant (Some (T, (move_ctor T x).2)) (operation o) (type_id o) in
  (move_ctor_throws T x = false →
   let s' := State (<[this := Variant (Some (T, (move_ctor T x).1)) (operation o) (type_id o)]>
                      (<[other := o']> h))
                   (tr ++ [EvDestroy U y; EvMove T x]) in
   move_assign this other (State h tr) = Ok tt s'
   ∧ consistent_at s' this ∧ consistent_at s' other
   ∧ ∃ s'', variant_dtor other s' = Ok tt s''
       ∧ trace s'' = trace s' ++ [EvDestroy T (move_ctor T x).2])
  ∧ (move_ctor_throws T x = true →
     let s' := State (<[this := Variant None (operation o) (type_id v)]> (<[other := o']> h))
                     (tr ++ [EvDestroy U y]) in
     move_assign this other (State h tr) = Throw alternative_exception s'
     ∧ variant_dtor this s' = Undefined).
Proof.
  intros Hne Hv Ho Cv Co Hdv Hdo Hm o'. subst o'.
  pose proof (consistent_has_data v U y Cv Hdv) as Lv.
  pose proof (consistent_has_data o T x Co Hdo) as Lo.
  pose proof (consistent_operation o T x Co Hdo) as Hopo.
  assert (operation o = operation_type T (is_copy_constructible T) true) as Hopo'.
  { rewrite Hopo. unfold operation_of. by rewrite Hm. }
  assert (destruction v = [EvDestroy U y]) as HD by (unfold destruction; by rewrite Hdv).
  split.
  - intros Hr s'. subst s'.
    split; [erewrite move_assign_run by done; by rewrite HD|].
    split; [apply consistent_at_insert; by eapply consistent_residual|].
    split.
    + eexists. cbn [heap]. rewrite lookup_insert_ne, lookup_insert_eq by done.
      split; [done|]. by eapply consistent_residual.
    + eexists. split.
      * eapply (variant_dtor_live _ _ other _ T _ (is_copy_constructible T) true);
          [by rewrite lookup_insert_ne, lookup_insert_eq | done | done | done].
      * done.
  - intros Hr s'. subst s'.
    split; [erewrite move_assign_throws by done; by rewrite HD|].
    rewrite Hopo'. eapply variant_dtor_destroyed; [apply lookup_insert_eq|done].
Qed.

(** X14.  [emplace] and assignment of a value dispatch Destroy through the
    bound operation without looking at the tag.  On a variant with an empty
    buffer this does nothing when the null operation is bound, as the
    destructor leaves it, and the new value is constructed when the
    constructor returns; when the operation of a type is still bound, a
    destructor is run on the empty buffer and the behaviour is undefined. *)
Theorem mutation_of_empty_buffer h tr this v T (a : args) :
  h !! this = Some v → data v = None → T ∈ TTypes →
  (operation v = operation_void →
     (args_ctor_throws T a = false →
      emplace_T this T (by_value a) (State h tr)
      = Ok (Ref T this)
           (State (<[this := Variant (Some (T, args_ctor T a)) (operation_of T)
                                     (index_of_type T)]> h)
                  (tr ++ [EvConstruct T (args_ctor T a)])))
     ∧ ∀ (rv : bool) x,
         (if rv then move_ctor_throws T x else copy_ctor_throws T x) = false →
         ∃ s', assign_value this T rv (outside x) (State h tr) = Ok tt s'
               ∧ destroyed (trace s') = destroyed tr)
  ∧ (∀ U c m, operation v = operation_type U c m →
     (∀ w, emplace_T this T w (State h tr) = Undefined)
     ∧ ∀ rv value, assign_value this T rv value (State h tr) = Undefined).
Proof.
  intros Hv Hd Hin.
  assert (is_one_of T = true) as Hone by (by apply bool_decide_eq_true_2).
  pose proof (TTypes_unqualified T Hin) as Hq.
  split.
  - intros Hop. split.
    + intros Hr. unfold emplace_T, do_operation. cbn zeta. rewrite Hone, Hq.
      run. unfold do_operation. rewrite Hq. by run.
    + intros rv x Hr. destruct rv; eexists; split.
      * unfold assign_value. cbn zeta. rewrite Hq, Hone. run.
        unfold do_operation. rewrite Hq. by run.
      * cbn [trace]. rewrite destroyed_app. apply app_nil_r.
      * unfold assign_value. cbn zeta. rewrite Hq, Hone. run.
        unfold do_operation. rewrite Hq. by run.
      * cbn [trace]. rewrite destroyed_app. apply app_nil_r.
  - intros U c m Hop. split.
    + intros w. unfold emplace_T. cbn zeta. rewrite Hone. run. unfold do_operation.
      by destruct c, m; run.
    + intros rv value. unfold assign_value. cbn zeta. rewrite Hq, Hone. run.
      unfold do_operation. by destruct c, m; run.
Qed.


(** *** Swap *)

(** Move assignment from a live source to a destination with an empty
    buffer and the null operation bound. *)
Lemma move_assign_to_void h tr this other v o T y c :
  this ≠ other → h !! this = Some v → h !! other = Some o →
  operation v = operation_void →
  type_id o ≠ variant_npos →
  operation o = operation_type T c true → data o = Some (T, y) →
  move_ctor_throws T y = false →
  move_assign this other (State h tr)
  = Ok tt (State (<[this := Variant (Some (T, (move_ctor T y).1)) (operation o) (type_id o)]>
                    (<[other := Variant (Some (T, (move_ctor T y).2)) (operation o) (type_id o)]> h))
                 (tr ++ [EvMove T y])).
Proof.
  intros Hne Hv Ho Hopv L Hopo Hdo Hr. apply N.eqb_neq in L.
  unfold move_assign. run_members.
  erewrite call_operation_void; [| done | done].
  run_members.
  erewrite call_operation_Move; [| done | by run | by run | by run | done | done].
  run. heap_eq.
Qed.

(** X16.  [swap] of a variant with itself, when it holds a value [x] of a
    move-constructible type whose move constructor returns: the value is
    moved into the temporary and back, what each move leaves behind is
    destroyed, and the variant keeps its tag and operation and holds the
    value moved twice. *)
Theorem swap_with_itself h tr this v T x :
  h !! this = Some v → consistent v = true → type_id v ≠ variant_npos →
  data v = Some (T, x) → is_move_constructible T = true →
  let x1 := (move_ctor T x).1 in
  move_ctor_throws T x = false → move_ctor_throws T x1 = false →
  swap this this (State h tr)
  = Ok tt (State (<[this := Variant (Some (T, (move_ctor T x1).1)) (operation v) (type_id v)]> h)
                 (tr ++ [EvMove T x; EvDestroy T (move_ctor T x).2;
                         EvMove T x1; EvDestroy T (move_ctor T x1).2])).
Proof.
  intros Hv C L Hd Hm x1 Hr Hr1. by apply swap_self_run.
Qed.

(** X17.  Two [swap]s in a row of two distinct variants that hold values
    of move-constructible types, with move constructors that return and hand
    these values over, put both variants back as they were. *)
Theorem swap_twice_restores h tr this rhs a b Ti Tj x y :
  this ≠ rhs → h !! this = Some a → h !! rhs = Some b →
  consistent a = true → consistent b = true →
  type_id a ≠ variant_npos → type_id b ≠ variant_npos →
  data a = Some (Ti, x) → data b = Some (Tj, y) →
  is_move_constructible Ti = true → is_move_constructible Tj = true →
  move_ctor_throws Ti x = false → move_ctor_throws Tj y = false →
  (move_ctor Ti x).1 = x → (move_ctor Tj y).1 = y →
  ∃ tr', (swap this rhs;; swap this rhs) (State h tr) = Ok tt (State h tr')
    ∧ destroyed tr'
      = destroyed tr ++ [(Ti, (move_ctor Ti x).2); (Tj, (move_ctor Tj y).2);
                         (Ti, (move_ctor Ti x).2); (Tj, (move_ctor Tj y).2);
                         (Ti, (move_ctor Ti x).2); (Tj, (move_ctor Tj y).2)].
Proof.
  intros Hne Ha Hb Ca Cb La Lb Hda Hdb Hmi Hmj Hrx Hry Hx Hy.
  eexists. split.
  - unfold mbind at 1, M_bind at 1.
    rewrite (swap_run h tr this rhs a b Ti Tj x y);
      [| done | done | done | done | done | done | done | done | done | done
       | done | done | done | by cbn zeta; rewrite Hx ].
    cbn zeta. rewrite !Hx, Hy.
    erewrite (swap_run _ _ this rhs _ _ Tj Ti y x);
      [ | done | by rewrite lookup_insert_ne, lookup_insert_eq
        | by rewrite lookup_insert_eq
        | by eapply consistent_residual | by eapply consistent_residual
        | done | done | done | done | done | done
        | done | done | by cbn zeta; rewrite Hy ].
    cbn zeta. cbn [operation type_id]. rewrite !Hy, Hx.
    destruct a as [da opa ia], b as [db opb ib]. cbn [data] in Hda, Hdb. subst.
    match goal with
    | |- Ok tt (State ?h1 _) = Ok tt (State ?h2 _) => replace h1 with h2
    end; [reflexivity|].
    cbn [operation type_id]. heap_eq.
  - rewrite !destroyed_app. cbn. by rewrite <- !app_assoc.
Qed.

(** X18.  [swap] when one of the two distinct variants is valueless, with an
    empty buffer and the null operation bound, and the other holds a value of
    a move-constructible type whose move constructor returns: the value is
    moved to the valueless side,
    which takes the tag and the operation; the side that gave the value gets
    the sentinel tag while its buffer still holds what the move left behind,
    on which no destructor runs. *)
Theorem swap_with_valueless h tr this rhs a b T x :
  this ≠ rhs → h !! this = Some a → h !! rhs = Some b →
  consistent a = true → type_id a ≠ variant_npos → data a = Some (T, x) →
  is_move_constructible T = true →
  type_id b = variant_npos → data b = None → operation b = operation_void →
  let x1 := (move_ctor T x).1 in
  move_ctor_throws T x = false → move_ctor_throws T x1 = false →
  swap this rhs (State h tr)
  = Ok tt (State (<[rhs := Variant (Some (T, (move_ctor T x1).1)) (operation a) (type_id a)]>
                    (<[this := Variant (Some (T, (move_ctor T x).2)) (operation a) variant_npos]> h))
                 (tr ++ [EvMove T x; EvMove T x1; EvDestroy T (move_ctor T x1).2]))
  ∧ swap rhs this (State h tr)
    = Ok tt (State (<[rhs := Variant (Some (T, x1)) (operation a) (type_id a)]>
                      (<[this := Variant (Some (T, (move_ctor T x).2)) (operation a) variant_npos]> h))
                   (tr ++ [EvMove T x])).
Proof.
  intros Hne Ha Hb Ca La Hda Hm Lb Hdb Hopb x1 Hr Hr1. subst x1.
  pose proof (consistent_operation a T x Ca Hda) as Hopa.
  unfold operation_of in Hopa. rewrite Hm in Hopa.
  pose proof (fresh_addr_fresh h) as Hfresh.
  set (temp := fresh_addr h) in *.
  assert (temp ≠ this) as Ht1 by (intros ->; congruence).
  assert (temp ≠ rhs) as Ht2 by (intros ->; congruence).
  split.
  - unfold swap, noexcept, mbind, M_bind. rewrite run_alloca. fold temp.
    erewrite variant_move_ctor_live;
      [| done | solve_lookup | solve_lookup | done | done | done | done ].
    erewrite move_assign_valueless;
      [| done | solve_lookup | solve_lookup | done ].
    erewrite move_assign_to_void;
      [| done | solve_lookup | solve_lookup | done | done
       | by cbn [operation] | by cbn [data] | done ].
    erewrite variant_dtor_live;
      [| solve_lookup | done | by cbn [operation] | by cbn [data] ].
    unfold dealloca. cbn [heap trace operation type_id data].
    match goal with
    | |- Ok tt (State ?h1 _) = Ok tt (State ?h2 _) => replace h1 with h2
    end.
    + by rewrite <- !app_assoc.
    + heap_eq.
  - unfold swap, noexcept, mbind, M_bind. rewrite run_alloca. fold temp.
    erewrite variant_move_ctor_valueless;
      [| done | solve_lookup | solve_lookup | done ].
    erewrite move_assign_to_void;
      [| done | solve_lookup | solve_lookup | done | done | done | done | done ].
    erewrite move_assign_valueless;
      [| done | solve_lookup | solve_lookup | done ].
    erewrite variant_dtor_valueless; [| solve_lookup | done ].
    unfold dealloca. cbn [heap trace operation type_id data].
    match goal with
    | |- Ok tt (State ?h1 _) = Ok tt (State ?h2 _) => replace h1 with h2
    end.
    + done.
    + heap_eq.
Qed.

(** *** The comparison operators *)

Lemma operator_lt_other_tag h tr lhs rhs a b :
  h !! lhs = Some a → h !! rhs = Some b → type_id a ≠ type_id b →
  operator_lt lhs rhs (State h tr) = Ok (tag_less (type_id a) (type_id b)) (State h tr).
Proof.
  intros Ha Hb Hne. unfold operator_lt, tag_less. run_members.
  destruct (N.eqb_spec (type_id a) variant_npos) as [Ea|Ea],
           (N.eqb_spec (type_id b) variant_npos) as [Eb|Eb]; run; try done.
  apply N.eqb_neq in Hne. by rewrite Hne.
Qed.

Lemma operator_eq_other_tag h tr lhs rhs a b :
  h !! lhs = Some a → h !! rhs = Some b → type_id a ≠ type_id b →
  operator_eq lhs rhs (State h tr) = Ok false (State h tr).
Proof.
  intros Ha Hb Hne. unfold operator_eq. run_members.
  destruct (N.eqb_spec (type_id a) variant_npos) as [Ea|Ea],
           (N.eqb_spec (type_id b) variant_npos) as [Eb|Eb]; run; try done.
  - congruence.
  - apply N.eqb_neq in Hne. by rewrite Hne.
Qed.

Lemma operator_valueless_pair h tr lhs rhs a b :
  h !! lhs = Some a → h !! rhs = Some b →
  type_id a = variant_npos → type_id b = variant_npos →
  operator_eq lhs rhs (State h tr) = Ok true (State h tr)
  ∧ operator_lt lhs rhs (State h tr) = Ok false (State h tr).
Proof.
  intros Ha Hb La Lb. unfold operator_eq, operator_lt.
  split; run; by rewrite N.eqb_refl.
Qed.

Lemma tag_less_flip ta tb : ta ≠ tb → tag_less tb ta = negb (tag_less ta tb).
Proof.
  intros Hne. unfold tag_less.
  destruct (N.eqb_spec ta variant_npos), (N.eqb_spec tb variant_npos);
    cbn; try done; try congruence.
  rewrite N.ltb_antisym. f_equal. rewrite N.leb_antisym.
  destruct (N.ltb_spec ta tb), (N.ltb_spec tb ta); cbn; try done; lia.
Qed.

(** X19.  For two variants with different tags, one of them possibly
    valueless, the six operators agree with one strict order in which a
    valueless variant comes first and the others are ordered by tag: [==] is
    false and [!=] true, exactly one of [<] and [>] is true, [<=] is [<] and
    [>=] is [>].  No held value is looked at and nothing is thrown. *)
Theorem comparison_of_different_tags h tr lhs rhs a b :
  h !! lhs = Some a → h !! rhs = Some b → type_id a ≠ type_id b →
  let s := State h tr in
  let lt := tag_less (type_id a) (type_id b) in
  operator_eq lhs rhs s = Ok false s
  ∧ operator_ne lhs rhs s = Ok true s
  ∧ operator_lt lhs rhs s = Ok lt s
  ∧ operator_gt lhs rhs s = Ok (negb lt) s
  ∧ operator_le lhs rhs s = Ok lt s
  ∧ operator_ge lhs rhs s = Ok (negb lt) s.
Proof.
  intros Ha Hb Hne s lt. subst s lt.
  pose proof (operator_eq_other_tag h tr lhs rhs a b Ha Hb Hne) as Eeq.
  pose proof (operator_lt_other_tag h tr lhs rhs a b Ha Hb Hne) as Elt.
  assert (type_id b ≠ type_id a) as Hne' by congruence.
  pose proof (operator_lt_other_tag h tr rhs lhs b a Hb Ha Hne') as Egt.
  rewrite (tag_less_flip _ _ Hne) in Egt.
  split; [done|].
  split; [unfold operator_ne, mbind, M_bind; by rewrite Eeq|].
  split; [done|].
  split; [done|].
  split.
  - unfold operator_le, operator_gt, mbind, M_bind. rewrite Egt.
    by rewrite negb_involutive.
  - unfold operator_ge, mbind, M_bind. by rewrite Elt.
Qed.

(** [<] in full, for variants that satisfy the invariant. *)
Lemma operator_lt_true h tr lhs rhs a b :
  sizeof_TTypes ≤ size_t_max →
  h !! lhs = Some a → h !! rhs = Some b →
  consistent a = true → consistent b = true →
  operator_lt lhs rhs (State h tr) = Ok true (State h tr) ↔
  (type_id a ≠ type_id b ∧ tag_less (type_id a) (type_id b) = true)
  ∨ (type_id a = type_id b ∧ type_id a ≠ variant_npos
     ∧ ∃ T x y, data a = Some (T, x) ∧ data b = Some (T, y)
                ∧ type_list_index_of_type TTypes T = type_id a ∧ val_lt T x y = true).
Proof.
  intros Hlen Ha Hb Ca Cb.
  destruct (decide (type_id a = type_id b)) as [E|Hne].
  - destruct (decide (type_id a = variant_npos)) as [La|La].
    + assert (type_id b = variant_npos) as Lb by congruence.
      destruct (operator_valueless_pair h tr lhs rhs a b Ha Hb La Lb) as [_ ->].
      split; [done|]. intros [[? _]|(_ & ? & _)]; done.
    + assert (type_id b ≠ variant_npos) as Lb by congruence.
      destruct (consistent_live a Ca La) as (T & x & Hty & Hda & _).
      destruct (consistent_live b Cb Lb) as (T' & y & Hty' & Hdb & _).
      rewrite <- E, Hty in Hty'. injection Hty' as <-.
      destruct (compare_same_tag h tr lhs rhs a b T x y Hlen Ha Hb La E Hty Hda Hdb)
        as [_ ->].
      split.
      * intros Hr. right. split; [done|]. split; [done|]. exists T, x, y.
        destruct (N.eqb_spec (type_list_index_of_type TTypes T) (type_id a)); [|done].
        injection Hr as Hr. done.
      * intros [[? _]|(_ & _ & T' & x' & y' & Hda' & Hdb' & Hidx & Hlt)]; [done|].
        rewrite Hda in Hda'. injection Hda' as <- <-.
        rewrite Hdb in Hdb'. injection Hdb' as <-.
        by rewrite Hidx, N.eqb_refl, Hlt.
  - rewrite (operator_lt_other_tag h tr lhs rhs a b Ha Hb Hne). split.
    + intros [= Hr]. by left.
    + intros [[_ ->]|(? & _)]; done.
Qed.

Lemma tag_less_trans ta tb tc :
  tag_less ta tb = true → tag_less tb tc = true → tag_less ta tc = true.
Proof.
  unfold tag_less.
  destruct (N.eqb_spec ta variant_npos), (N.eqb_spec tb variant_npos),
           (N.eqb_spec tc variant_npos); cbn; try done.
  intros ?%N.ltb_lt ?%N.ltb_lt. apply N.ltb_lt. lia.
Qed.

Lemma tag_less_neq ta tb : tag_less ta tb = true → ta ≠ tb.
Proof.
  unfold tag_less. intros Hl ->.
  destruct (N.eqb_spec tb variant_npos); cbn in Hl; [done|].
  apply N.ltb_lt in Hl. lia.
Qed.

(** X20.  On variants that satisfy the invariant, [<] is a strict order
    whenever the [<] of every alternative type is: it never holds between a
    variant and itself, and it is transitive. *)
Theorem operator_lt_strict_order h tr p q r a b c :
  sizeof_TTypes ≤ size_t_max →
  h !! p = Some a → h !! q = Some b → h !! r = Some c →
  consistent a = true → consistent b = true → consistent c = true →
  (∀ T x, val_lt T x x = false) →
  (∀ T x y z, val_lt T x y = true → val_lt T y z = true → val_lt T x z = true) →
  let s := State h tr in
  operator_lt p p s ≠ Ok true s
  ∧ (operator_lt p q s = Ok true s → operator_lt q r s = Ok true s →
     operator_lt p r s = Ok true s).
Proof.
  intros Hlen Ha Hb Hc Ca Cb Cc Hirr Htrans s. subst s. split.
  - intros Hr. apply (operator_lt_true h tr p p a a Hlen Ha Ha Ca Ca) in Hr.
    destruct Hr as [[? _]|(_ & _ & T & x & y & Hd1 & Hd2 & _ & Hlt)]; [done|].
    rewrite Hd1 in Hd2. injection Hd2 as <-. by rewrite Hirr in Hlt.
  - intros H1 H2.
    apply (operator_lt_true h tr p q a b Hlen Ha Hb Ca Cb) in H1.
    apply (operator_lt_true h tr q r b c Hlen Hb Hc Cb Cc) in H2.
    apply (operator_lt_true h tr p r a c Hlen Ha Hc Ca Cc).
    destruct H1 as [[Hn1 Hl1]|(E1 & L1 & T1 & x1 & y1 & Hd1 & Hd1' & Hi1 & Hl1)],
             H2 as [[Hn2 Hl2]|(E2 & L2 & T2 & x2 & y2 & Hd2 & Hd2' & Hi2 & Hl2)].
    + left. pose proof (tag_less_trans _ _ _ Hl1 Hl2) as Hl.
      split; [by apply tag_less_neq|done].
    + left. rewrite <- E2. done.
    + left. rewrite E1. done.
    + right. split; [congruence|]. split; [done|].
      rewrite Hd1' in Hd2. injection Hd2 as <- <-.
      exists T1, x1, y2. repeat split; try done. by eapply Htrans.
Qed.

(** [==] in full, for variants that satisfy the invariant. *)
Lemma operator_eq_true h tr lhs rhs a b :
  sizeof_TTypes ≤ size_t_max →
  h !! lhs = Some a → h !! rhs = Some b →
  consistent a = true → consistent b = true →
  operator_eq lhs rhs (State h tr) = Ok true (State h tr) ↔
  type_id a = type_id b
  ∧ (type_id a = variant_npos
     ∨ ∃ T x y, data a = Some (T, x) ∧ data b = Some (T, y)
                ∧ type_list_index_of_type TTypes T = type_id a ∧ val_eq T x y = true).
Proof.
  intros Hlen Ha Hb Ca Cb.
  destruct (decide (type_id a = type_id b)) as [E|Hne].
  - destruct (decide (type_id a = variant_npos)) as [La|La].
    + assert (type_id b = variant_npos) as Lb by congruence.
      destruct (operator_valueless_pair h tr lhs rhs a b Ha Hb La Lb) as [-> _].
      split; [|done]. intros _. split; [done|by left].
    + assert (type_id b ≠ variant_npos) as Lb by congruence.
      destruct (consistent_live a Ca La) as (T & x & Hty & Hda & _).
      destruct (consistent_live b Cb Lb) as (T' & y & Hty' & Hdb & _).
      rewrite <- E, Hty in Hty'. injection Hty' as <-.
      destruct (compare_same_tag h tr lhs rhs a b T x y Hlen Ha Hb La E Hty Hda Hdb)
        as [-> _].
      split.
      * intros Hr. split; [done|]. right. exists T, x, y.
        destruct (N.eqb_spec (type_list_index_of_type TTypes T) (type_id a)); [|done].
        injection Hr as Hr. done.
      * intros [_ [?|(T' & x' & y' & Hda' & Hdb' & Hidx & Heq)]]; [done|].
        rewrite Hda in Hda'. injection Hda' as <- <-.
        rewrite Hdb in Hdb'. injection Hdb' as <-.
        by rewrite Hidx, N.eqb_refl, Heq.
  - rewrite (operator_eq_other_tag h tr lhs rhs a b Ha Hb Hne). split.
    + intros [= ?].
    + intros [? _]. done.
Qed.

(** X21.  On variants that satisfy the invariant, [==] is symmetric and
    transitive whenever the [==] of every alternative type is, and variants
    that are [==] are not [<] one another when equal values of a type are not
    [<] one another. *)
Theorem operator_eq_partial_equivalence h tr p q r a b c :
  sizeof_TTypes ≤ size_t_max →
  h !! p = Some a → h !! q = Some b → h !! r = Some c →
  consistent a = true → consistent b = true → consistent c = true →
  (∀ T x y, val_eq T x y = true → val_eq T y x = true) →
  (∀ T x y z, val_eq T x y = true → val_eq T y z = true → val_eq T x z = true) →
  let s := State h tr in
  (operator_eq p q s = Ok true s → operator_eq q p s = Ok true s)
  ∧ (operator_eq p q s = Ok true s → operator_eq q r s = Ok true s →
     operator_eq p r s = Ok true s)
  ∧ ((∀ T x y, val_eq T x y = true → val_lt T x y = false) →
     operator_eq p q s = Ok true s → operator_lt p q s = Ok false s).
Proof.
  intros Hlen Ha Hb Hc Ca Cb Cc Hsym Htrans s. subst s. split; [|split].
  - intros H1. apply (operator_eq_true h tr p q a b Hlen Ha Hb Ca Cb) in H1.
    apply (operator_eq_true h tr q p b a Hlen Hb Ha Cb Ca).
    destruct H1 as [E [L|(T & x & y & Hd1 & Hd2 & Hi & Heq)]].
    + split; [done|]. left. congruence.
    + split; [done|]. right. exists T, y, x. repeat split; try done.
      * congruence.
      * by apply Hsym.
  - intros H1 H2.
    apply (operator_eq_true h tr p q a b Hlen Ha Hb Ca Cb) in H1.
    apply (operator_eq_true h tr q r b c Hlen Hb Hc Cb Cc) in H2.
    apply (operator_eq_true h tr p r a c Hlen Ha Hc Ca Cc).
    destruct H1 as [E1 [L1|(T1 & x1 & y1 & Hd1 & Hd1' & Hi1 & Heq1)]],
             H2 as [E2 [L2|(T2 & x2 & y2 & Hd2 & Hd2' & Hi2 & Heq2)]].
    + split; [congruence|by left].
    + split; [congruence|by left].
    + split; [congruence|]. left.
      destruct (consistent_valueless b Cb L2). congruence.
    + split; [congruence|]. right.
      rewrite Hd1' in Hd2. injection Hd2 as <- <-.
      exists T1, x1, y2. repeat split; try done. by eapply Htrans.
  - intros Hel H1.
    apply (operator_eq_true h tr p q a b Hlen Ha Hb Ca Cb) in H1.
    destruct H1 as [E [L|(T & x & y & Hd1 & Hd2 & Hi & Heq)]].
    + assert (type_id b = variant_npos) as Lb by congruence.
      by destruct (operator_valueless_pair h tr p q a b Ha Hb L Lb) as [_ ->].
    + assert (type_id a ≠ variant_npos) as La.
      { by eapply consistent_has_data. }
      destruct (consistent_live a Ca La) as (T' & x' & Hty & Hda & _).
      rewrite Hd1 in Hda. injection Hda as <- <-.
      destruct (compare_same_tag h tr p q a b T x y Hlen Ha Hb La E Hty Hd1 Hd2)
        as [_ ->].
      by rewrite Hi, N.eqb_refl, (Hel _ _ _ Heq).
Qed.

(** The visit of a comparison visitor, whatever the comparison returns. *)
Lemma visit_compare_any {R} (cmp : ty → val → val → R) (f : @callable ty val R)
    h tr lhs rhs a b T x y :
  (∀ r, f [r] =
          (r' ← get_T_const_lvalue (ref_type r) rhs;
           x ← read r; y ← read r'; mret (cmp (ref_type r) x y))) →
  sizeof_TTypes ≤ size_t_max →
  h !! lhs = Some a → h !! rhs = Some b →
  type_id a ≠ variant_npos →
  type_from_index (type_id a) = Some T →
  data a = Some (T, x) → data b = Some (T, y) →
  visit const_lvalue f lhs [] (State h tr)
  = if type_list_index_of_type TTypes T =? type_id b then Ok (cmp T x y) (State h tr)
    else Throw variant_incorrect_type_exception (State h tr).
Proof.
  intros Hf Hlen Ha Hb La Hty Hda Hdb.
  pose proof (type_from_index_lt _ _ Hty) as Hlt. apply N.ltb_lt in Hlt.
  apply N.eqb_neq in La.
  destruct (type_list_index_of_type_member TTypes T) as [_ Hty'];
    [by eapply list_elem_of_lookup_2 | done |].
  unfold visit. cbn [do_visit]. run_members.
  rewrite (get_Index_match const_lvalue _ lhs h tr a T) by done.
  rewrite Hf. cbn [ref_type].
  unfold get_T_const_lvalue. fold (type_list_index_of_type TTypes T).
  change get_Index_const_lvalue with (get_Index const_lvalue).
  unfold mbind at 1, M_bind at 1.
  rewrite (get_Index_checked const_lvalue _ rhs h tr b T) by done.
  destruct (type_list_index_of_type TTypes T =? type_id b); [|done].
  unfold mbind, M_bind.
  rewrite (run_read h tr lhs a T x), (run_read h tr rhs b T y) by done.
  done.
Qed.

(** X22.  [operator <=>] orders as [<] and [==] do: when the three-way
    comparison of every alternative type agrees with its [<] and [==], [<] of
    two variants is "[<=>] returns less" and [==] is "[<=>] returns equal",
    and the three operators throw on the same operands. *)
Theorem spaceship_agrees (val_cmp : ty → val → val → comparison) h tr lhs rhs a b :
  sizeof_TTypes ≤ size_t_max →
  h !! lhs = Some a → h !! rhs = Some b →
  consistent a = true → consistent b = true →
  (∀ T x y, val_lt T x y = match val_cmp T x y with Lt => true | _ => false end) →
  (∀ T x y, val_eq T x y = match val_cmp T x y with Eq => true | _ => false end) →
  let s := State h tr in
  operator_lt lhs rhs s
  = (c ← operator_spaceship val_cmp lhs rhs;
     mret match c with Lt => true | _ => false end) s
  ∧ operator_eq lhs rhs s
    = (c ← operator_spaceship val_cmp lhs rhs;
       mret match c with Eq => true | _ => false end) s.
Proof.
  intros Hlen Ha Hb Ca Cb Hlt Heq s. subst s.
  destruct (decide (type_id a = type_id b)) as [E|Hne].
  - destruct (decide (type_id a = variant_npos)) as [La|La].
    + assert (type_id b = variant_npos) as Lb by congruence.
      destruct (operator_valueless_pair h tr lhs rhs a b Ha Hb La Lb) as [-> ->].
      unfold operator_spaceship. split; run; by rewrite N.eqb_refl.
    + assert (type_id b ≠ variant_npos) as Lb by congruence.
      destruct (consistent_live a Ca La) as (T & x & Hty & Hda & _).
      destruct (consistent_live b Cb Lb) as (T' & y & Hty' & Hdb & _).
      rewrite <- E, Hty in Hty'. injection Hty' as <-.
      destruct (compare_same_tag h tr lhs rhs a b T x y Hlen Ha Hb La E Hty Hda Hdb)
        as [-> ->].
      pose proof (visit_compare_any val_cmp (compare_visitor val_cmp rhs)
                    h tr lhs rhs a b T x y (λ _, eq_refl) Hlen Ha Hb La Hty Hda Hdb)
        as Hv.
      assert (operator_spaceship val_cmp lhs rhs (State h tr)
              = visit const_lvalue (compare_visitor val_cmp rhs) lhs [] (State h tr))
        as Hs.
      { apply N.eqb_neq in La, Lb. unfold operator_spaceship. run_members.
        rewrite <- E. by rewrite N.eqb_refl. }
      unfold mbind, M_bind. rewrite Hs, Hv, <- E.
      destruct (type_list_index_of_type TTypes T =? type_id a); [|done].
      by rewrite Hlt, Heq.
  - rewrite (operator_lt_other_tag h tr lhs rhs a b Ha Hb Hne).
    rewrite (operator_eq_other_tag h tr lhs rhs a b Ha Hb Hne).
    unfold operator_spaceship, tag_less. run_members.
    destruct (N.eqb_spec (type_id a) variant_npos) as [Ea|Ea],
             (N.eqb_spec (type_id b) variant_npos) as [Eb|Eb]; run; try done.
    + congruence.
    + pose proof Hne as Hne'. apply N.eqb_neq in Hne. rewrite Hne. cbn [negb].
      unfold mret, M_ret. rewrite N.ltb_compare.
      destruct (N.compare_spec (type_id a) (type_id b)); done.
Qed.

(** *** The life of the held values *)


(** X24.  In a pack that names a type [T] more than once, a variant
    constructed by index at a later position of [T] is found by index but
    not by type: [get<Index>] returns the value, while [holds_alternative<T>]
    and [is_type<T>] return [false], [get_if<T>] returns null and the
    checked overloads of [get<T>] fail with
    variant_incorrect_type_exception.  The constructor of [T] is one that
    returns. *)
Theorem repeated_type_not_found_by_type h tr this g Index T (a : args) :
  h !! this = Some g → type_from_index Index = Some T →
  type_list_index_of_type TTypes T ≠ Index →
  sizeof_TTypes ≤ size_t_max → args_ctor_throws T a = false →
  ∃ s', variant_in_place_index_ctor this Index a (State h tr) = Ok tt s'
    ∧ (∀ c, get_Index c Index this s' = Ok (Ref T this) s')
    ∧ read (Ref T this) s' = Ok (args_ctor T a) s'
    ∧ holds_alternative_Index Index this s' = Ok true s'
    ∧ holds_alternative_T T this s' = Ok false s'
    ∧ is_type this T s' = Ok false s'
    ∧ get_if_T T (Some this) s' = Ok None s'
    ∧ (∀ c, c ≠ rvalue →
         get_T c T this s' = Throw variant_incorrect_type_exception s').
Proof.
  intros Hg Hty Hne Hlen Hr.
  pose proof (type_from_index_is_one_of _ _ Hty) as Hone.
  assert (T ∈ TTypes) as Hin by (by apply bool_decide_eq_true in Hone).
  destruct (index_of_type_member T Hin Hlen) as [Hnp HtyT].
  pose proof (type_from_index_lt _ _ Hty) as Hlt.
  assert ((Index =? type_list_index_of_type TTypes T) = false) as Hneq
    by (apply N.eqb_neq; congruence).
  set (v1 := Variant (Some (T, args_ctor T a)) (operation_of T) Index).
  assert (<[this := v1]> h !! this = Some v1) as Hv1 by apply lookup_insert_eq.
  eexists. split; [by eapply variant_in_place_index_ctor_run|]. fold v1.
  split; [intros c; by eapply get_Index_match|].
  split; [by eapply run_read|].
  split; [unfold holds_alternative_Index; run; by rewrite N.eqb_refl|].
  split.
  { destruct (holds_alternative_T_member (<[this := v1]> h)
                (tr ++ [EvConstruct T (args_ctor T a)]) this v1 T Hv1 Hlen Hin)
      as [_ ->]. cbn [type_id v1]. by rewrite Hneq. }
  split.
  { rewrite (is_type_run _ _ this v1 T Hv1), (index_of_type_pack T Hin).
    cbn [type_id v1]. by rewrite Hneq, andb_false_r. }
  split.
  { unfold get_if_T, variant_alternative_t, noexcept.
    rewrite HtyT. apply type_from_index_lt in HtyT. apply N.ltb_lt in HtyT.
    run_members. cbn [type_id v1]. by rewrite Hneq. }
  intros c Hc. rewrite get_T_unfold.
  erewrite get_Index_checked by done. cbn [type_id v1].
  rewrite N.eqb_sym. by rewrite Hneq.
Qed.

End MoreProperties.

(** ** The properties on [etl::variant<int, string, bool>] *)

Module OnIntStringBool.

Import Example.

#[local] Existing Instance int_string_bool.

Lemma pack_fits : sizeof_TTypes ≤ size_t_max.
Proof. vm_compute. discriminate. Defined.

Ltac in_pack := apply list_elem_of_In; cbv; auto.

(** The sample objects are what the constructors build in raw storage:
    [variant v1(5)], [variant v2(std::string("z"))], and a variant
    move-constructed from itself. *)
Example sample_store_constructed :
  ∃ tr, (variant_value_ctor 1 T_int true (V_int 5);;
         variant_value_ctor 2 T_string true (V_string "z");;
         variant_move_ctor 3 3) (State raw_store [])
        = Ok tt (State sample_store tr).
Proof. eexists. reflexivity. Qed.

(** The variant at 1 holds the int 5 and the one at 3 is valueless; both
    satisfy the invariant.  After [v1 = v3], by copy or by move, the
    tag of the variant at 1 is the sentinel while its buffer still holds the
    live int 5 and its operation is still bound to int: tag and storage
    disagree. *)
Theorem assignment_from_valueless_breaks_invariant :
  consistent holds_int_5 = true ∧ consistent valueless = true
  ∧ ∃ s', copy_assign 1 3 sample = Ok tt s'
      ∧ move_assign 1 3 sample = Ok tt s'
      ∧ heap s' !! 1%nat
        = Some (Variant (Some (T_int, V_int 5)) (operation_type T_int true true) variant_npos)
      ∧ consistent (Variant (Some (T_int, V_int 5)) (operation_type T_int true true)
                            variant_npos) = false.
Proof.
  split; [reflexivity|]. split; [reflexivity|].
  destruct (assign_from_valueless sample_store [] 1%nat 3%nat holds_int_5 valueless
              T_int (V_int 5)) as (Hc & Hm & Hi & _);
    [done | reflexivity | reflexivity | reflexivity | done | reflexivity | reflexivity |].
  eexists. split; [exact Hc|]. split; [exact Hm|]. split; [|exact Hi].
  cbn [heap]. by rewrite lookup_insert_eq.
Qed.

(** C2.  After [v1 = v3], by copy or by move, with the variant at 1 holding
    the int 5 and the one at 3 valueless, the variant at 1 is valueless and
    no destructor has run; destroying the variant at 1 afterwards runs none
    either. *)
Theorem assignment_from_valueless_skips_destructor :
  ∃ s' s'', copy_assign 1 3 sample = Ok tt s'
    ∧ move_assign 1 3 sample = Ok tt s'
    ∧ valueless_by_exception 1 s' = Ok true s'
    ∧ destroyed (trace s') = []
    ∧ variant_dtor 1 s' = Ok tt s''
    ∧ destroyed (trace s'') = [].
Proof.
  destruct (assign_from_valueless sample_store [] 1%nat 3%nat holds_int_5 valueless
              T_int (V_int 5)) as (Hc & Hm & _ & Hd);
    [done | reflexivity | reflexivity | reflexivity | done | reflexivity | reflexivity |].
  eexists _, _. split; [exact Hc|]. split; [exact Hm|]. split; [|split; [|split]].
  - reflexivity.
  - reflexivity.
  - exact Hd.
  - reflexivity.
Qed.

(** C4.  On the variant at 1, which holds the int 5 at tag 0, [get<1>] and
    [get<string>] of a non-const rvalue return a reference narrowed to
    string, through which no string can be read; the other three overloads
    fail with variant_incorrect_type_exception. *)
Theorem get_rvalue_ignores_tag :
  get_Index_rvalue 1 1 sample = Ok (Ref T_string 1) sample
  ∧ get_T_rvalue T_string 1 sample = Ok (Ref T_string 1) sample
  ∧ read (Ref T_string 1) sample = Undefined
  ∧ get_Index_lvalue 1 1 sample = Throw variant_incorrect_type_exception sample
  ∧ get_Index_const_lvalue 1 1 sample = Throw variant_incorrect_type_exception sample
  ∧ get_Index_const_rvalue 1 1 sample = Throw variant_incorrect_type_exception sample
  ∧ get_T_lvalue T_string 1 sample = Throw variant_incorrect_type_exception sample
  ∧ get_T_const_lvalue T_string 1 sample = Throw variant_incorrect_type_exception sample
  ∧ get_T_const_rvalue T_string 1 sample = Throw variant_incorrect_type_exception sample.
Proof. repeat split; reflexivity. Qed.

(** Visiting the valueless variant at 3 with [accept] returns normally: the
    store and the trace are as before, no visitor or functor was called and
    nothing was thrown. *)
Lemma accept_valueless_returns :
  accept_visitor 3 sample = Ok tt sample
  ∧ accept_functor 3 sample = Ok tt sample
  ∧ (∀ s', accept_visitor 3 sample ≠ Throw bad_variant_access s')
  ∧ (∀ s', accept_functor 3 sample ≠ Throw bad_variant_access s')
  ∧ visited (trace sample) = [].
Proof. repeat split; (reflexivity || discriminate). Qed.

(** Visiting the variant at 2, which holds the string "z": [accept] calls
    the visitor, or the functor, on the string and on nothing else, and
    [etl::visit] with a callable that reads its argument returns the string. *)
Example accept_calls_held_alternative :
  accept_visitor 2 sample = Ok tt (State sample_store [EvVisit T_string (V_string "z")])
  ∧ accept_functor 2 sample = Ok tt (State sample_store [EvCall T_string (V_string "z")])
  ∧ visit lvalue (λ rs, match rs with [r] => read r | _ => ill_formed end) 2 [] sample
    = Ok (V_string "z") sample.
Proof. repeat split; reflexivity. Qed.

Lemma visit_valueless_witness :
  (∀ TRet c (f : @callable type value TRet),
     visit c f 3 [] sample = Throw bad_variant_access sample
     ∧ visit c f 1 [3%nat; 2%nat] sample = Throw bad_variant_access sample)
  ∧ accept_visitor 3 sample = Ok tt sample
  ∧ accept_functor 3 sample = Ok tt sample.
Proof.
  destruct (visit_valueless sample_store [] 3%nat valueless) as (Hv & Ha & Hf);
    [reflexivity | reflexivity | exact pack_fits |].
  split; [|by split].
  intros TRet c f. split.
  - by apply (Hv TRet c f [] []).
  - apply (Hv TRet c f [1%nat] [2%nat]); [|reflexivity].
    apply Forall_cons. split; [|by apply Forall_nil].
    exists holds_int_5. split; reflexivity.
Defined.



Lemma copy_construction_round_trip_witness :
  (∃ s', variant_copy_ctor 4 3 sample = Ok tt s'
     ∧ heap s' !! 4%nat = Some (Variant None operation_void variant_npos)
     ∧ heap s' !! 3%nat = Some valueless
     ∧ trace s' = [])
  ∧ (∃ s' y, variant_copy_ctor 4 2 sample = Ok tt s'
     ∧ heap s' !! 4%nat
       = Some (Variant (Some (T_string, y)) (operation_type T_string true true) 1)
     ∧ y = V_string "z"
     ∧ val_eq T_string y (V_string "z") = true
     ∧ consistent (Variant (Some (T_string, y)) (operation_type T_string true true) 1)
       = true
     ∧ heap s' !! 2%nat = Some holds_string_z
     ∧ trace s' = [EvCopy T_string (V_string "z")]
     ∧ operator_eq 4 2 s' = Ok true s').
Proof.
  split.
  - destruct (copy_construction_round_trip sample_store [] 4%nat 3%nat valueless
                operation_void 0) as [Hv _];
      [discriminate | reflexivity | reflexivity |].
    apply Hv. reflexivity.
  - destruct (copy_construction_round_trip sample_store [] 4%nat 2%nat holds_string_z
                operation_void 0) as [_ Hl];
      [discriminate | reflexivity | reflexivity |].
    destruct (Hl T_string (V_string "z")) as (s' & y & H1 & H2 & H3 & H4 & H5 & H6 & H7 & H8);
      [discriminate | reflexivity ..|].
    exists s', y. repeat (split; [assumption|]).
    apply H8; [exact pack_fits | reflexivity].
Defined.

Lemma move_construction_cases_witness :
  (∃ s' d, variant_move_ctor 4 3 sample = Ok tt s'
     ∧ heap s' !! 4%nat = Some d ∧ type_id d = variant_npos
     ∧ destroyed (trace s') = [])
  ∧ (∃ s' d, variant_move_ctor 4 4 sample = Ok tt s'
     ∧ heap s' !! 4%nat = Some d ∧ type_id d = variant_npos
     ∧ destroyed (trace s') = [])
  ∧ (∃ s', variant_move_ctor 4 2 sample = Ok tt s'
     ∧ heap s' !! 4%nat = Some holds_string_z
     ∧ heap s' !! 2%nat
       = Some (Variant (Some (T_string, V_string "")) (operation_type T_string true true) 1)
     ∧ consistent (Variant (Some (T_string, V_string ""))
                           (operation_type T_string true true) 1) = true
     ∧ trace s' = [EvMove T_string (V_string "z")]
     ∧ destroyed (trace s') = []
     ∧ ∃ s'', variant_dtor 2 s' = Ok tt s''
         ∧ trace s'' = trace s' ++ [EvDestroy T_string (V_string "")]).
Proof.
  split; [|split].
  - destruct (move_construction_cases sample_store [] 4%nat 3%nat raw_storage valueless)
      as (Hv & _ & _); [reflexivity | reflexivity |].
    apply Hv; [discriminate | reflexivity].
  - destruct (move_construction_cases sample_store [] 4%nat 4%nat raw_storage raw_storage)
      as (_ & Hs & _); [reflexivity | reflexivity |].
    apply Hs. reflexivity.
  - destruct (move_construction_cases sample_store [] 4%nat 2%nat raw_storage holds_string_z)
      as (_ & _ & Hl); [reflexivity | reflexivity |].
    apply (Hl T_string (V_string "z")); [discriminate | discriminate | reflexivity ..].
Defined.

Lemma swap_three_way_move_witness :
  swap 1 2 sample
  = Ok tt (State (<[2%nat := holds_int_5]> (<[1%nat := holds_string_z]> sample_store))
                 [EvMove T_int (V_int 5); EvDestroy T_int (V_int 5);
                  EvMove T_string (V_string "z"); EvDestroy T_string (V_string "");
                  EvMove T_int (V_int 5); EvDestroy T_int (V_int 5)]).
Proof.
  refine (swap_three_way_move sample_store [] 1%nat 2%nat holds_int_5 holds_string_z
            T_int T_string (V_int 5) (V_string "z") _ _ _ _ _ _ _ _ _ _ _ _ _ _ _);
    (reflexivity || discriminate).
Defined.

Lemma holds_alternative_T_spec_witness :
  holds_alternative_T T_string 1 sample = Ok false sample
  ∧ holds_alternative_T T_string 2 sample = Ok true sample
  ∧ type_from_index (type_list_index_of_type TTypes T_string) = Some T_string
  ∧ type_list_index_of_type TTypes T_mutex = type_id valueless
  ∧ holds_alternative_T T_mutex 3 sample = Ok false sample.
Proof.
  destruct (holds_alternative_T_spec sample_store [] 3%nat valueless T_mutex)
    as [H3 _]; [reflexivity | exact pack_fits |].
  destruct H3 as [Hn H3];
    [intros Hin%list_elem_of_In; cbv in Hin; intuition discriminate|].
  destruct (holds_alternative_T_spec sample_store [] 1%nat holds_int_5 T_string)
    as [_ H1]; [reflexivity | exact pack_fits |].
  destruct (holds_alternative_T_spec sample_store [] 2%nat holds_string_z T_string)
    as [_ H2]; [reflexivity | exact pack_fits |].
  destruct H1 as [Hty H1]; [in_pack|].
  destruct H2 as [_ H2]; [in_pack|].
  split; [exact H1|]. split; [exact H2|]. split; [exact Hty|].
  split; [exact Hn | exact H3].
Defined.

Lemma comparison_order_witness :
  (operator_eq 3 3 sample = Ok true sample
   ∧ operator_lt 3 3 sample = Ok false sample)
  ∧ (operator_eq 3 1 sample = Ok false sample
     ∧ operator_lt 3 1 sample = Ok true sample
     ∧ operator_lt 1 3 sample = Ok false sample)
  ∧ (operator_eq 1 2 sample = Ok false sample
     ∧ operator_lt 1 2 sample = Ok true sample)
  ∧ (operator_eq 1 1 sample = Ok true sample
     ∧ operator_lt 1 1 sample = Ok false sample).
Proof.
  split; [|split; [|split]].
  - destruct (comparison_order sample_store [] 3%nat 3%nat valueless valueless)
      as (Hvv & _); [reflexivity | reflexivity | exact pack_fits |].
    destruct Hvv as (He & Hl & _); [reflexivity | reflexivity |]. by split.
  - destruct (comparison_order sample_store [] 3%nat 1%nat valueless holds_int_5)
      as (_ & Hvl & _); [reflexivity | reflexivity | exact pack_fits |].
    destruct Hvl as (He & _ & Hl & Hg); [reflexivity | discriminate |]. by repeat split.
  - destruct (comparison_order sample_store [] 1%nat 2%nat holds_int_5 holds_string_z)
      as (_ & _ & Hd & _); [reflexivity | reflexivity | exact pack_fits |].
    destruct Hd as (He & Hl); [discriminate | discriminate | discriminate |]. by split.
  - destruct (comparison_order sample_store [] 1%nat 1%nat holds_int_5 holds_int_5)
      as (_ & _ & _ & Hs); [reflexivity | reflexivity | exact pack_fits |].
    destruct (Hs T_int (V_int 5) (V_int 5)) as [Hok _];
      [discriminate | reflexivity ..|].
    destruct Hok as [He Hl]; [reflexivity|]. by split.
Defined.

(** Construction of an object from itself.  The copy constructor assigns
    the members to themselves and the move constructor writes the sentinel
    besides.  In storage whose operation member was left bound to a type the
    new object has an empty buffer under that operation: the invariant fails,
    and the next [emplace] dispatches Destroy on the empty buffer. *)
Lemma construction_from_itself_keeps_operation :
  let s := State (<[4%nat := used_storage]> sample_store) [] in
  let s' := State (<[4%nat := Variant None (operation_type T_int true true) npos]>
                     sample_store) [] in
  variant_copy_ctor 4 4 s = Ok tt s
  ∧ ¬ consistent_at s 4
  ∧ variant_move_ctor 4 4 s = Ok tt s'
  ∧ valueless_by_exception 4 s' = Ok true s'
  ∧ ¬ consistent_at s' 4
  ∧ emplace_T 4 T_int (by_value (V_int 1)) s' = Undefined.
Proof.
  split; [vm_compute; reflexivity|].
  split; [intros (v & E & C); cbn in E; injection E as <-; discriminate|].
  split; [vm_compute; reflexivity|]. split; [reflexivity|]. split; [|reflexivity].
  intros (v & E & C). cbn in E. injection E as <-. discriminate.
Qed.

(** An argument of [emplace] or of the assignment of a value that refers to
    the value the variant holds is read after that value has been
    destroyed. *)
Lemma argument_from_own_value_is_undefined :
  consistent holds_int_5 = true
  ∧ read (Ref T_int 1) sample = Ok (V_int 5) sample
  ∧ emplace_T 1 T_int (from_held (Ref T_int 1) (λ x, x)) sample = Undefined
  ∧ emplace_Index 1 0 (from_held (Ref T_int 1) (λ x, x)) sample = Undefined
  ∧ assign_value 1 T_int false (inside (Ref T_int 1)) sample = Undefined
  ∧ assign_value 1 T_int true (inside (Ref T_int 1)) sample = Undefined.
Proof. repeat split; reflexivity. Qed.

(** [swap] of the variant at 1, which holds the int 5, with the valueless
    one at 3: the move assignment from the valueless operand only writes the
    sentinel, so the variant at 1 ends with the sentinel as tag over a
    buffer that still holds the moved-from int, and its destructor does not
    destroy it. *)
Lemma swap_with_one_valueless_breaks_invariant :
  let left := Variant (Some (T_int, V_int 5)) (operation_type T_int true true) npos in
  let s' := State (<[3%nat := holds_int_5]> (<[1%nat := left]> sample_store))
                  [EvMove T_int (V_int 5); EvMove T_int (V_int 5);
                   EvDestroy T_int (V_int 5)] in
  consistent holds_int_5 = true ∧ consistent valueless = true
  ∧ swap 1 3 sample = Ok tt s'
  ∧ heap s' !! 1%nat = Some left
  ∧ consistent left = false
  ∧ ¬ consistent_at s' 1
  ∧ variant_dtor 1 s'
    = Ok tt (State (<[1%nat := Variant (Some (T_int, V_int 5)) operation_void npos]>
                      (heap s')) (trace s')).
Proof.
  intros left s'.
  split; [reflexivity|]. split; [reflexivity|].
  split; [vm_compute; reflexivity|].
  split; [reflexivity|]. split; [reflexivity|].
  split; [|vm_compute; reflexivity].
  intros (v & E & C). cbn in E. injection E as <-. discriminate.
Qed.

End OnIntStringBool.

(** ** The comparison on [etl::variant<int, int>] *)

Module OnIntInt.

Import Example.

#[local] Existing Instance int_int.

(** The two objects are what [variant v(etl::in_place_index_t<1>{}, 7)]
    builds in raw storage. *)
Example int_int_store_constructed :
  ∃ tr, (variant_in_place_index_ctor 1 1 (V_int 7);;
         variant_in_place_index_ctor 2 1 (V_int 7))
          (State (<[1%nat := raw_storage]> (<[2%nat := raw_storage]> ∅)) [])
        = Ok tt (State int_int_store tr).
Proof. eexists. reflexivity. Qed.

(** C5.  Both variants hold 7 in the second alternative and satisfy the
    invariant.  [operator ==] and [operator <] signal incorrect-type access:
    their visitors fetch the right operand by type, find [int] at index 0
    and fail on the tag 1, so the results are not those of [==] and [<] on
    the held values. *)
Lemma comparison_of_repeated_type_throws :
  let s := State int_int_store [] in
  consistent second_int_7 = true
  ∧ operator_eq 1 2 s = Throw variant_incorrect_type_exception s
  ∧ operator_lt 1 2 s = Throw variant_incorrect_type_exception s
  ∧ operator_eq 1 2 s ≠ Ok (val_eq T_int (V_int 7) (V_int 7)) s
  ∧ operator_lt 1 2 s ≠ Ok (val_lt T_int (V_int 7) (V_int 7)) s.
Proof. repeat split; (reflexivity || discriminate). Qed.

End OnIntInt.

(** ** Constructors that throw: [etl::variant<fuse, int>] *)

Module OnFuseInt.

Import Example.

#[local] Existing Instance fuse_int.

(** The objects are what [variant v1;] and [variant v2(5)] build in raw
    storage. *)
Example fuse_int_store_constructed :
  ∃ tr, (variant_default_ctor 1;; variant_value_ctor 2 T_int true (V_int 5))
          (State (<[1%nat := raw_storage]> (<[2%nat := raw_storage]>
                    (<[4%nat := raw_storage]> ∅))) [])
        = Ok tt (State fuse_int_store tr).
Proof. eexists. reflexivity. Qed.


(** The variants at 1 and 2 hold a fuse and the int 5 and satisfy the
    invariant.  Assigning the fuse to the variant at 2, as a value or as a
    variant, destroys the int and leaves by the exception of the copy or
    move constructor with the invariant broken; [swap], which is
    [noexcept], terminates the program. *)
Lemma assignment_with_throwing_constructor :
  consistent holds_fuse = true ∧ consistent second_int_5 = true
  ∧ (∃ s', assign_value 2 T_fuse false (inside (Ref T_fuse 1)) fuse_int_start
           = Throw alternative_exception s' ∧ ¬ consistent_at s' 2)
  ∧ (∃ s', copy_assign 2 1 fuse_int_start = Throw alternative_exception s'
           ∧ ¬ consistent_at s' 2)
  ∧ (∃ s', move_assign 2 1 fuse_int_start = Throw alternative_exception s'
           ∧ ¬ consistent_at s' 2)
  ∧ swap 1 2 fuse_int_start = Terminate.
Proof.
  split; [reflexivity|]. split; [reflexivity|].
  repeat split; try reflexivity;
    (eexists; split; [reflexivity|]);
    intros (v & E & C); cbn in E; injection E as <-; discriminate.
Qed.


End OnFuseInt.

(** ** Types that can be neither copied nor moved: [etl::variant<mutex, int>] *)

Module OnMutexInt.

Import Example.

#[local] Existing Instance mutex_int.

(** The objects are what [variant v1;] and [variant v2(5)] build in raw
    storage. *)
Example mutex_int_store_constructed :
  ∃ tr, (variant_default_ctor 1;; variant_value_ctor 2 T_int true (V_int 5))
          (State (<[1%nat := raw_storage]> (<[2%nat := raw_storage]>
                    (<[4%nat := raw_storage]> ∅))) [])
        = Ok tt (State mutex_int_store tr).
Proof. eexists. reflexivity. Qed.


(** The copy of the variant at 1, which holds a mutex, has the tag of the
    source and holds nothing; no copy constructor has run. *)
Lemma copy_of_uncopyable_holds_nothing :
  ∃ s' d, variant_copy_ctor 4 1 mutex_int_start = Ok tt s'
    ∧ heap s' !! 4%nat = Some d
    ∧ type_id d = type_id holds_mutex
    ∧ data d = None
    ∧ trace s' = [].
Proof. eexists _, _. repeat split; reflexivity. Qed.

(** Move construction from the variant at 1, which holds a mutex, gives the
    destination the tag of the source and no value; no move constructor has
    run and the source is as it was. *)
Lemma move_of_unmovable_holds_nothing :
  ∃ s' d, variant_move_ctor 4 1 mutex_int_start = Ok tt s'
    ∧ heap s' !! 4%nat = Some d
    ∧ type_id d = type_id holds_mutex
    ∧ data d = None
    ∧ heap s' !! 1%nat = Some holds_mutex
    ∧ trace s' = [].
Proof. eexists _, _. repeat split; reflexivity. Qed.

(** [swap] of the variant at 1, which holds a mutex, with the one at 2,
    which holds the int 5: the temporary gets the tag of mutex and no value,
    and its destructor runs the destructor of mutex on an empty buffer. *)
Lemma swap_of_unmovable_is_undefined :
  consistent holds_mutex = true ∧ consistent second_int_5 = true
  ∧ swap 1 2 mutex_int_start = Undefined.
Proof. repeat split; reflexivity. Qed.

End OnMutexInt.

(** ** The further properties on [etl::variant<int, string, bool>] *)

Module MoreOnIntStringBool.

Import Example.

#[local] Existing Instance int_string_bool.

Lemma fits : sizeof_TTypes ≤ size_t_max.
Proof. vm_compute. discriminate. Defined.

Ltac member := apply list_elem_of_In; cbv; auto.

Ltac foreign := intros Hin%list_elem_of_In; cbv in Hin; intuition discriminate.

Lemma in_place_index_construction_witness :
  let s' := State (<[4%nat := Variant (Some (T_string, V_string "q"))
                                (operation_type T_string true true) 1]> sample_store)
                  [EvConstruct T_string (V_string "q")] in
  variant_in_place_index_ctor 4 1 (V_string "q") sample = Ok tt s'
  ∧ index 4 s' = Ok 1 s'
  ∧ valueless_by_exception 4 s' = Ok false s'
  ∧ holds_alternative_Index 1 4 s' = Ok true s'
  ∧ (∀ c, get_Index c 1 4 s' = Ok (Ref T_string 4) s')
  ∧ read (Ref T_string 4) s' = Ok (V_string "q") s'
  ∧ consistent_at s' 4
  ∧ destroyed (trace s') = [].
Proof.
  refine (in_place_index_construction sample_store [] 4%nat raw_storage 1 T_string
            (V_string "q") _ _ _ _);
    [reflexivity | reflexivity | exact fits | reflexivity].
Defined.


Lemma default_construction_witness :
  let s' := State (<[4%nat := Variant (Some (T_int, V_int 0))
                                (operation_type T_int true true) 0]> sample_store)
                  [EvConstruct T_int (V_int 0)] in
  variant_default_ctor 4 sample = Ok tt s'
  ∧ index 4 s' = Ok 0 s'
  ∧ (∀ c, get_Index c 0 4 s' = Ok (Ref T_int 4) s')
  ∧ read (Ref T_int 4) s' = Ok (V_int 0) s'
  ∧ consistent_at s' 4.
Proof.
  destruct (default_construction sample_store [] 4%nat raw_storage) as [_ Hd];
    [reflexivity|].
  refine (Hd T_int _ _ _); [reflexivity | exact fits | reflexivity].
Defined.

Lemma foreign_alternative_rejected_witness :
  (variant_in_place_index_ctor 4 3 (V_int 1) sample = IllFormed
   ∧ emplace_Index 1 3 (by_value (V_int 1)) sample = IllFormed
   ∧ get_Index lvalue 3 1 sample = IllFormed
   ∧ get_if_Index 3 (Some 1%nat) sample = IllFormed)
  ∧ (emplace_T 1 T_const_int (by_value (V_int 1)) sample = IllFormed
     ∧ get_T rvalue T_const_int 1 sample = IllFormed
     ∧ get_if_T T_mutex None sample = IllFormed
     ∧ holds_alternative_T T_const_int 1 sample = Ok false sample)
  ∧ (variant_value_ctor 4 T_mutex true (V_mutex false) sample = IllFormed
     ∧ assign_value 1 T_mutex false (outside (V_mutex false)) sample = IllFormed
     ∧ variant_in_place_type_ctor 4 T_mutex (V_mutex false) sample = IllFormed
     ∧ is_supported_type T_mutex = false
     ∧ is_type 1 T_mutex sample = Ok false sample).
Proof.
  destruct (foreign_alternative_rejected sample 4%nat (V_int 1) fits) as [Hi _].
  destruct (Hi 3) as (H1 & _); [vm_compute; discriminate|].
  destruct (foreign_alternative_rejected sample 1%nat (V_int 1) fits) as (Hi1 & Ht & _).
  destruct (Hi1 3) as (_ & H2 & H3 & H4); [vm_compute; discriminate|].
  destruct (Ht T_const_int) as (H5 & H6 & _ & H8); [foreign|].
  destruct (Ht T_mutex) as (_ & _ & H7 & _); [foreign|].
  destruct (foreign_alternative_rejected sample 4%nat (V_mutex false) fits)
    as (_ & _ & Hs4).
  destruct (Hs4 T_mutex) as (H9 & H11 & _); [foreign|].
  destruct (foreign_alternative_rejected sample 1%nat (V_mutex false) fits)
    as (_ & _ & Hs1).
  destruct (Hs1 T_mutex) as (H10 & _ & H12 & H13); [foreign|].
  split; [|split].
  - split; [exact H1|]. split; [exact (H2 _)|]. split; [exact (H3 lvalue)|].
    exact (proj1 (H4 (Some 1%nat))).
  - split; [exact (H5 _)|]. split; [exact (H6 rvalue)|].
    split; [exact (proj1 (H7 None)) | exact H8].
  - split; [exact (proj1 (H9 true (V_mutex false) (outside (V_mutex false))))|].
    split; [exact (proj2 (H10 false (V_mutex false) (outside (V_mutex false))))|].
    split; [exact H11|]. split; [exact H12 | exact H13].
Defined.

Lemma get_mismatch_throws_witness :
  get_Index const_lvalue 1 1 sample = Throw variant_incorrect_type_exception sample
  ∧ get_T const_rvalue T_bool 1 sample = Throw variant_incorrect_type_exception sample
  ∧ get_Index lvalue 0 3 sample = Throw variant_incorrect_type_exception sample
  ∧ get_T lvalue T_int 3 sample = Throw variant_incorrect_type_exception sample.
Proof.
  destruct (get_mismatch_throws sample_store [] 1%nat holds_int_5 const_lvalue)
    as (H1 & _); [discriminate | reflexivity | exact fits |].
  destruct (get_mismatch_throws sample_store [] 1%nat holds_int_5 const_rvalue)
    as (_ & H2 & _); [discriminate | reflexivity | exact fits |].
  destruct (get_mismatch_throws sample_store [] 3%nat valueless lvalue)
    as (_ & _ & H3); [discriminate | reflexivity | exact fits |].
  destruct H3 as [H3 H4]; [reflexivity|].
  split; [apply (H1 1 T_string); [reflexivity | discriminate]|].
  split; [apply (H2 T_bool); [member | discriminate]|].
  split; [apply (H3 0 T_int); reflexivity|].
  apply (H4 T_int). member.
Defined.

Lemma get_match_reads_value_witness :
  (∀ c, get_Index c 1 2 sample = Ok (Ref T_string 2) sample)
  ∧ (∀ c, get_T c T_string 2 sample = Ok (Ref T_string 2) sample)
  ∧ read (Ref T_string 2) sample = Ok (V_string "z") sample.
Proof.
  destruct (get_match_reads_value sample_store [] 2%nat holds_string_z T_string
              (V_string "z")) as (H1 & H2 & H3);
    [reflexivity | reflexivity | discriminate | reflexivity |].
  split; [exact H1|]. split; [apply H2; reflexivity | exact H3].
Defined.

Lemma get_if_returns_null_or_reference_witness :
  get_if_Index 1 None sample = Ok None sample
  ∧ get_if_Index 1 (Some 1%nat) sample = Ok None sample
  ∧ get_if_Index 1 (Some 2%nat) sample = Ok (Some (Ref T_string 2)) sample
  ∧ get_if_Index_const 1 (Some 3%nat) sample = Ok None sample
  ∧ get_if_T T_int (Some 1%nat) sample = Ok (Some (Ref T_int 1)) sample
  ∧ get_if_T_const T_int (Some 3%nat) sample = Ok None sample.
Proof.
  destruct (get_if_returns_null_or_reference sample_store [] 1%nat holds_int_5)
    as [H1 H1T]; [reflexivity | exact fits |].
  destruct (get_if_returns_null_or_reference sample_store [] 2%nat holds_string_z)
    as [H2 _]; [reflexivity | exact fits |].
  destruct (get_if_returns_null_or_reference sample_store [] 3%nat valueless)
    as [H3 H3T]; [reflexivity | exact fits |].
  destruct (H1 1 T_string) as (Ha & _ & Hb & _); [reflexivity|].
  destruct (H2 1 T_string) as (_ & _ & Hc & _); [reflexivity|].
  destruct (H3 1 T_string) as (_ & _ & _ & Hd); [reflexivity|].
  destruct (H1T T_int) as (_ & _ & He & _); [member|].
  destruct (H3T T_int) as (_ & _ & _ & Hf); [member|].
  split; [exact Ha|]. split; [exact Hb|]. split; [exact Hc|].
  split; [exact Hd|]. split; [exact He | exact Hf].
Defined.


Lemma accept_calls_held_once_witness :
  accept_visitor 2 sample
  = Ok tt (State sample_store [EvVisit T_string (V_string "z")])
  ∧ accept_functor 2 sample
    = Ok tt (State sample_store [EvCall T_string (V_string "z")]).
Proof.
  refine (accept_calls_held_once sample_store [] 2%nat holds_string_z T_string
            (V_string "z") _ _ _ _); (reflexivity || discriminate).
Defined.

Lemma visit_calls_with_held_values_witness :
  visit const_lvalue (λ args : list (reference type), mret args) 2 [1%nat; 2%nat] sample
  = Ok [Ref T_string 2; Ref T_int 1; Ref T_string 2] sample.
Proof.
  assert (refers_to_held sample_store 1 (Ref T_int 1)) as H1.
  { split; [reflexivity|]. exists holds_int_5, (V_int 5).
    repeat split; (reflexivity || discriminate). }
  assert (refers_to_held sample_store 2 (Ref T_string 2)) as H2.
  { split; [reflexivity|]. exists holds_string_z, (V_string "z").
    repeat split; (reflexivity || discriminate). }
  apply (visit_calls_with_held_values const_lvalue
           (λ args : list (reference type), mret args) sample_store [] 2%nat
           [1%nat; 2%nat] (Ref T_string 2) [Ref T_int 1; Ref T_string 2]); [exact H2|].
  constructor; [exact H1|]. constructor; [exact H2|]. constructor.
Defined.




Lemma mutation_of_empty_buffer_witness :
  emplace_T 3 T_bool (by_value (V_bool true)) sample
  = Ok (Ref T_bool 3)
       (State (<[3%nat := Variant (Some (T_bool, V_bool true))
                            (operation_type T_bool true true) 2]> sample_store)
              [EvConstruct T_bool (V_bool true)])
  ∧ (∃ s', assign_value 3 T_bool false (outside (V_bool true)) sample = Ok tt s'
           ∧ destroyed (trace s') = [])
  ∧ (let s := State (<[4%nat := used_storage]> sample_store) [] in
     emplace_T 4 T_bool (by_value (V_bool true)) s = Undefined
     ∧ assign_value 4 T_bool true (inside (Ref T_int 1)) s = Undefined).
Proof.
  destruct (mutation_of_empty_buffer sample_store [] 3%nat valueless T_bool (V_bool true))
    as [Hvoid _]; [reflexivity | reflexivity | member |].
  destruct (Hvoid eq_refl) as [He Ha].
  destruct (mutation_of_empty_buffer (<[4%nat := used_storage]> sample_store)
              [] 4%nat used_storage T_bool (V_bool true)) as [_ Htype];
    [reflexivity | reflexivity | member |].
  destruct (Htype T_int true true eq_refl) as [Hu Hv].
  split; [exact (He eq_refl)|]. split; [exact (Ha false (V_bool true) eq_refl)|].
  split; [exact (Hu _) | exact (Hv true (inside (Ref T_int 1)))].
Defined.


Lemma swap_with_itself_witness :
  swap 2 2 sample
  = Ok tt (State (<[2%nat := holds_string_z]> sample_store)
                 [EvMove T_string (V_string "z");
                  EvDestroy T_string (V_string EmptyString);
                  EvMove T_string (V_string "z");
                  EvDestroy T_string (V_string EmptyString)]).
Proof.
  refine (swap_with_itself sample_store [] 2%nat holds_string_z T_string
            (V_string "z") _ _ _ _ _ _ _); (reflexivity || discriminate).
Defined.

Lemma swap_twice_restores_witness :
  ∃ tr', (swap 1 2;; swap 1 2) sample = Ok tt (State sample_store tr')
    ∧ destroyed tr'
      = [(T_int, V_int 5); (T_string, V_string EmptyString);
         (T_int, V_int 5); (T_string, V_string EmptyString);
         (T_int, V_int 5); (T_string, V_string EmptyString)].
Proof.
  refine (swap_twice_restores sample_store [] 1%nat 2%nat holds_int_5 holds_string_z
            T_int T_string (V_int 5) (V_string "z") _ _ _ _ _ _ _ _ _ _ _ _ _ _ _);
    (reflexivity || discriminate).
Defined.

Lemma swap_with_valueless_witness :
  let given := Variant (Some (T_int, V_int 5)) (operation_type T_int true true) npos in
  swap 1 3 sample
  = Ok tt (State (<[3%nat := holds_int_5]> (<[1%nat := given]> sample_store))
                 [EvMove T_int (V_int 5); EvMove T_int (V_int 5);
                  EvDestroy T_int (V_int 5)])
  ∧ swap 3 1 sample
    = Ok tt (State (<[3%nat := holds_int_5]> (<[1%nat := given]> sample_store))
                   [EvMove T_int (V_int 5)]).
Proof.
  refine (swap_with_valueless sample_store [] 1%nat 3%nat holds_int_5 valueless
            T_int (V_int 5) _ _ _ _ _ _ _ _ _ _ _ _); (reflexivity || discriminate).
Defined.

Lemma comparison_of_different_tags_witness :
  (operator_eq 1 2 sample = Ok false sample
   ∧ operator_ne 1 2 sample = Ok true sample
   ∧ operator_lt 1 2 sample = Ok true sample
   ∧ operator_gt 1 2 sample = Ok false sample
   ∧ operator_le 1 2 sample = Ok true sample
   ∧ operator_ge 1 2 sample = Ok false sample)
  ∧ (operator_eq 1 3 sample = Ok false sample
     ∧ operator_ne 1 3 sample = Ok true sample
     ∧ operator_lt 1 3 sample = Ok false sample
     ∧ operator_gt 1 3 sample = Ok true sample
     ∧ operator_le 1 3 sample = Ok false sample
     ∧ operator_ge 1 3 sample = Ok true sample).
Proof.
  split.
  - refine (comparison_of_different_tags sample_store [] 1%nat 2%nat holds_int_5
              holds_string_z _ _ _); (reflexivity || discriminate).
  - refine (comparison_of_different_tags sample_store [] 1%nat 3%nat holds_int_5
              valueless _ _ _); (reflexivity || discriminate).
Defined.

Lemma string_compare_refl a : String.compare a a = Eq.
Proof.
  induction a as [|x a IH]; [reflexivity|]. simpl.
  unfold Ascii.compare. rewrite N.compare_refl. exact IH.
Defined.

Lemma string_compare_lt_trans a :
  ∀ b c, String.compare a b = Lt → String.compare b c = Lt → String.compare a c = Lt.
Proof.
  induction a as [|x a IH]; intros [|y b] [|z c]; simpl; try done.
  unfold Ascii.compare.
  destruct (N.compare_spec (Ascii.N_of_ascii x) (Ascii.N_of_ascii y)),
           (N.compare_spec (Ascii.N_of_ascii y) (Ascii.N_of_ascii z)),
           (N.compare_spec (Ascii.N_of_ascii x) (Ascii.N_of_ascii z));
    try done; try lia.
  apply IH.
Defined.

Lemma less_value_irreflexive (T : type) (x : value) : val_lt T x x = false.
Proof.
  destruct x as [z|a|b|l|f]; cbn.
  - apply Z.ltb_irrefl.
  - unfold String.ltb. by rewrite string_compare_refl.
  - by destruct b.
  - reflexivity.
  - reflexivity.
Defined.

Lemma less_value_transitive (T : type) (x y z : value) :
  val_lt T x y = true → val_lt T y z = true → val_lt T x z = true.
Proof.
  destruct x as [x|x|x|x|x], y as [y|y|y|y|y], z as [z|z|z|z|z]; cbn; try done.
  - intros ?%Z.ltb_lt ?%Z.ltb_lt. apply Z.ltb_lt. lia.
  - unfold String.ltb. intros Hxy Hyz.
    destruct (String.compare x y) eqn:Exy; try done.
    destruct (String.compare y z) eqn:Eyz; try done.
    by rewrite (string_compare_lt_trans x y z Exy Eyz).
  - by destruct x, y, z.
Defined.

Lemma operator_lt_strict_order_witness :
  operator_lt 3 3 sample ≠ Ok true sample
  ∧ (operator_lt 3 1 sample = Ok true sample → operator_lt 1 2 sample = Ok true sample →
     operator_lt 3 2 sample = Ok true sample).
Proof.
  refine (operator_lt_strict_order sample_store [] 3%nat 1%nat 2%nat valueless
            holds_int_5 holds_string_z fits _ _ _ _ _ _
            less_value_irreflexive less_value_transitive); reflexivity.
Defined.

Lemma equal_values_not_less (T : type) (x y : value) :
  val_eq T x y = true → val_lt T x y = false.
Proof.
  cbn. intros ->%bool_decide_eq_true. apply (less_value_irreflexive T).
Defined.

Lemma operator_eq_partial_equivalence_witness :
  let h := <[5%nat := holds_int_5]> sample_store in
  let s := State h [] in
  (operator_eq 1 5 s = Ok true s → operator_eq 5 1 s = Ok true s)
  ∧ (operator_eq 1 5 s = Ok true s → operator_eq 5 1 s = Ok true s →
     operator_eq 1 1 s = Ok true s)
  ∧ (operator_eq 1 5 s = Ok true s → operator_lt 1 5 s = Ok false s).
Proof.
  destruct (operator_eq_partial_equivalence (<[5%nat := holds_int_5]> sample_store) []
              1%nat 5%nat 1%nat holds_int_5 holds_int_5 holds_int_5 fits)
    as (H1 & H2 & H3); try reflexivity.
  - cbn. intros _ x y ->%bool_decide_eq_true. by apply bool_decide_eq_true.
  - cbn. intros _ x y z ->%bool_decide_eq_true ->%bool_decide_eq_true.
    by apply bool_decide_eq_true.
  - split; [exact H1|]. split; [exact H2|]. exact (H3 equal_values_not_less).
Defined.

Lemma spaceship_agrees_witness :
  operator_lt 1 2 sample
  = (c ← operator_spaceship (λ _ : type, compare_value) 1 2;
     mret match c with Lt => true | _ => false end) sample
  ∧ operator_eq 1 2 sample
    = (c ← operator_spaceship (λ _ : type, compare_value) 1 2;
       mret match c with Eq => true | _ => false end) sample.
Proof.
  refine (spaceship_agrees (λ _ : type, compare_value) sample_store [] 1%nat 2%nat holds_int_5
            holds_string_z fits _ _ _ _ _ _); try reflexivity.
  - intros T x y. cbn. unfold compare_value. case_bool_decide as E.
    + subst y. apply (less_value_irreflexive T).
    + by destruct (less_value x y).
  - intros T x y. cbn. unfold compare_value. case_bool_decide as E; [done|].
    by destruct (less_value x y).
Defined.


End MoreOnIntStringBool.

(** ** The further properties on [etl::variant<int, int>] *)

Module MoreOnIntInt.

Import Example.

#[local] Existing Instance int_int.

Lemma repeated_type_not_found_by_type_witness :
  ∃ s', variant_in_place_index_ctor 4 1 (V_int 7) (State (<[4%nat := raw_storage]> ∅) [])
        = Ok tt s'
    ∧ (∀ c, get_Index c 1 4 s' = Ok (Ref T_int 4) s')
    ∧ read (Ref T_int 4) s' = Ok (V_int 7) s'
    ∧ holds_alternative_Index 1 4 s' = Ok true s'
    ∧ holds_alternative_T T_int 4 s' = Ok false s'
    ∧ is_type 4 T_int s' = Ok false s'
    ∧ get_if_T T_int (Some 4%nat) s' = Ok None s'
    ∧ (∀ c, c ≠ rvalue →
         get_T c T_int 4 s' = Throw variant_incorrect_type_exception s').
Proof.
  refine (repeated_type_not_found_by_type (<[4%nat := raw_storage]> ∅) [] 4%nat
            raw_storage 1 T_int
            (V_int 7) _ _ _ _ _);
    [reflexivity | reflexivity | discriminate | vm_compute; discriminate | reflexivity].
Defined.

End MoreOnIntInt.

(** ** The further properties on [etl::variant<fuse, int>] *)

Module MoreOnFuseInt.

Import Example.

#[local] Existing Instance fuse_int.

Lemma fuse_int_fits : sizeof_TTypes ≤ size_t_max.
Proof. vm_compute. discriminate. Defined.

Ltac member := apply list_elem_of_In; cbv; auto.


Lemma copy_assignment_between_live_witness :
  (let s' := State (<[1%nat := second_int_5]> fuse_int_store)
                   [EvDestroy T_fuse (V_fuse false); EvCopy T_int (V_int 5)] in
   copy_assign 1 2 fuse_int_start = Ok tt s'
   ∧ heap s' !! 2%nat = Some second_int_5
   ∧ consistent_at s' 1
   ∧ is_same_type 1 2 s' = Ok true s'
   ∧ operator_eq 1 2 s' = Ok true s')
  ∧ (let s' := State (<[2%nat := Variant None (operation_type T_fuse true true) 1]>
                        fuse_int_store) [EvDestroy T_int (V_int 5)] in
     copy_assign 2 1 fuse_int_start = Throw alternative_exception s'
     ∧ heap s' !! 1%nat = Some holds_fuse
     ∧ variant_dtor 2 s' = Undefined).
Proof.
  destruct (copy_assignment_between_live fuse_int_store [] 1%nat 2%nat holds_fuse
              second_int_5 T_fuse (V_fuse false) T_int (V_int 5)) as [Hok _];
    [discriminate | reflexivity | reflexivity | reflexivity | reflexivity
    | reflexivity | reflexivity | reflexivity |].
  destruct (Hok eq_refl) as (H1 & H2 & H3 & H4 & H5).
  destruct (copy_assignment_between_live fuse_int_store [] 2%nat 1%nat second_int_5
              holds_fuse T_int (V_int 5) T_fuse (V_fuse false)) as [_ Hthrows];
    [discriminate | reflexivity | reflexivity | reflexivity | reflexivity
    | reflexivity | reflexivity | reflexivity |].
  split; [|exact (Hthrows eq_refl)].
  split; [exact H1|]. split; [exact H2|]. split; [exact H3|]. split; [exact H4|].
  apply H5; [exact fuse_int_fits | reflexivity | reflexivity].
Defined.

Lemma move_assignment_between_live_witness :
  (let s' := State (<[1%nat := second_int_5]> (<[2%nat := second_int_5]> fuse_int_store))
                   [EvDestroy T_fuse (V_fuse false); EvMove T_int (V_int 5)] in
   move_assign 1 2 fuse_int_start = Ok tt s'
   ∧ consistent_at s' 1 ∧ consistent_at s' 2
   ∧ ∃ s'', variant_dtor 2 s' = Ok tt s''
       ∧ trace s'' = trace s' ++ [EvDestroy T_int (V_int 5)])
  ∧ (let s' := State (<[2%nat := Variant None (operation_type T_fuse true true) 1]>
                        (<[1%nat := holds_fuse]> fuse_int_store))
                     [EvDestroy T_int (V_int 5)] in
     move_assign 2 1 fuse_int_start = Throw alternative_exception s'
     ∧ variant_dtor 2 s' = Undefined).
Proof.
  destruct (move_assignment_between_live fuse_int_store [] 1%nat 2%nat holds_fuse
              second_int_5 T_fuse (V_fuse false) T_int (V_int 5)) as [Hok _];
    [discriminate | reflexivity | reflexivity | reflexivity | reflexivity
    | reflexivity | reflexivity | reflexivity |].
  destruct (move_assignment_between_live fuse_int_store [] 2%nat 1%nat second_int_5
              holds_fuse T_int (V_int 5) T_fuse (V_fuse false)) as [_ Hthrows];
    [discriminate | reflexivity | reflexivity | reflexivity | reflexivity
    | reflexivity | reflexivity | reflexivity |].
  split; [exact (Hok eq_refl) | exact (Hthrows eq_refl)].
Defined.


End MoreOnFuseInt.
